(** * InviteReward: invite attribution and reward reconciliation

    A shallow embedding of [index.js] (the Discord invite-reward bot) and
    the properties of its attribution / reconciliation engine.

    Conventions of the embedding:
    - JavaScript strings are [string]; a value that may be [null] or
      [undefined] is an [option]; [a || b] on such values is [js_or].
    - Invite use counts, row ids and timestamps are integer-valued JavaScript
      numbers and are modelled in [Z]; the reward amount is an IEEE-754
      double and is modelled by the kernel's binary64 [float].
    - A JavaScript [Map] keeps its keys in insertion order; the per-guild
      invite map is therefore an association list ([JsMap]) and not an
      unordered finite map.  The outer cache, indexed by guild id, is only
      ever looked up and overwritten, and is a [gmap].
    - The SQLite table [invite_rewards] is a list of rows in rowid order
      together with the AUTOINCREMENT counter.
    - The chat platform and the payment API are external: their answers
      are inputs ([option] results, a [World] of oracles), and the calls
      made to the payment API are collected in a trace.
    - A reconciliation pass runs to its end before the next event is
      handled (the single-timer assumption of the design); SQL statements
      do not fail.
    - Left out, because they neither read nor write the snapshot cache or
      [invite_rewards]: the messages sent to the log channel, command
      registration and [lastPeriodicRun].  The log-channel table and the
      [/list] and [/log] commands are modelled on their own, beside the
      bot state. *)

From Stdlib Require Import ZArith Floats Lia Ascii.
From stdpp Require Import gmap strings list pretty sorting.

Local Open Scope string_scope.
Local Open Scope list_scope.
Local Open Scope Z_scope.

(** ** JavaScript value helpers *)

(** Truthiness of a nullable string: [null], [undefined] and the empty
    string are falsy. *)
Definition truthy (s : option string) : bool :=
  match s with
  | Some s' => negb (bool_decide (s' = ""))
  | None => false
  end.

(** [a || b] on nullable strings. *)
Definition js_or (a b : option string) : option string :=
  if truthy a then a else b.

(** [a || d] where [d] is a string literal. *)
Definition js_or_str (a : option string) (d : string) : string :=
  match js_or a (Some d) with
  | Some s => s
  | None => d
  end.

(** [n || 0] on a nullable number: [null], [undefined] and [0] all give 0. *)
Definition js_or_0 (n : option Z) : Z := default 0 n.

(** ** Insertion-ordered maps (JavaScript [Map<string, number>]) *)

Module JsMap.

Definition t := list (string * Z).

Definition empty : t := [].

Fixpoint get (k : string) (m : t) : option Z :=
  match m with
  | [] => None
  | (k', v) :: m' => if decide (k' = k) then Some v else get k m'
  end.

(** [m.set(k, v)]: an existing key keeps its position, a new key goes
    to the end. *)
Fixpoint set (k : string) (v : Z) (m : t) : t :=
  match m with
  | [] => [(k, v)]
  | (k', v') :: m' =>
      if decide (k' = k) then (k', v) :: m' else (k', v') :: set k v m'
  end.

Fixpoint delete (k : string) (m : t) : t :=
  match m with
  | [] => []
  | (k', v') :: m' =>
      if decide (k' = k) then m' else (k', v') :: delete k m'
  end.

Definition keys (m : t) : list string := m.*1.

(** [m.get(k) || 0] *)
Definition count (m : t) (k : string) : Z := js_or_0 (get k m).

End JsMap.

(** ** Invites and the snapshot cache *)

(** What the bot reads of an invite: [inv.code], [inv.uses] (nullable) and
    [inv.inviter.id] ([None] when [inv.inviter] is null). *)
Record Invite := mkInvite {
  code : string;
  uses : option Z;
  inviter : option string
}.

(** [invitesCache : Map<guildId, Map<inviteCode, uses>>] *)
Abbreviation InvitesCache := (gmap string JsMap.t).

(** [for (const inv of ...) map.set(inv.code, inv.uses || 0)] starting from
    the map [m]. *)
Definition collect_uses (invs : list Invite) (m : JsMap.t) : JsMap.t :=
  fold_left (λ acc inv, JsMap.set (code inv) (js_or_0 (uses inv)) acc) invs m.

(** [refreshGuildInvites(guild)]: [fetched] is the outcome of
    [guild.invites.fetch()], [None] when it throws.  Returns the new cache
    and the returned map. *)
Definition refreshGuildInvites (guildId : string)
    (fetched : option (list Invite)) (cache : InvitesCache)
    : InvitesCache * JsMap.t :=
  match fetched with
  | Some invs =>
      let map := collect_uses invs JsMap.empty in
      (<[guildId := map]> cache, map)
  | None => (<[guildId := JsMap.empty]> cache, JsMap.empty)
  end.

(** [invitesCache.get(guildId) || new Map()] *)
Definition cached (cache : InvitesCache) (guildId : string) : JsMap.t :=
  default JsMap.empty (cache !! guildId).

(** [client.on('inviteCreate')]; [guild] is [invite.guild] (nullable). *)
Definition inviteCreate (guild : option string) (c : string) (u : option Z)
    (cache : InvitesCache) : InvitesCache :=
  match guild with
  | None => cache
  | Some g => <[g := JsMap.set c (js_or_0 u) (cached cache g)]> cache
  end.

(** [client.on('inviteDelete')] *)
Definition inviteDelete (guild : option string) (c : string)
    (cache : InvitesCache) : InvitesCache :=
  match guild with
  | None => cache
  | Some g => <[g := JsMap.delete c (cached cache g)]> cache
  end.

(** ** Attribution (the [guildMemberAdd] handler, first half) *)

(** The [used] object: [{ code, inviterId }]. *)
Record Used := mkUsed {
  u_code : string;
  u_inviterId : option string
}.

(** [fetchedArr.find(i => i.code === code)] *)
Definition find_by_code (c : string) (fetchedArr : list Invite)
    : option Invite :=
  find (λ i, bool_decide (code i = c)) fetchedArr.

(** [{ code, inviterId: inv && inv.inviter ? String(inv.inviter.id) : null }] *)
Definition used_of (c : string) (inv : option Invite) : Used :=
  mkUsed c (inv ≫= inviter).

(** The loop [for (const [code, uses] of newMap.entries())] with its
    [break] at the first increased invite. *)
Fixpoint scan_entries (oldMap : JsMap.t) (fetchedArr : list Invite)
    (entries : list (string * Z)) : option Used :=
  match entries with
  | [] => None
  | (c, u) :: rest =>
      let oldUses := JsMap.count oldMap c in
      if bool_decide (oldUses < u)
      then Some (used_of c (find_by_code c fetchedArr))
      else scan_entries oldMap fetchedArr rest
  end.

(** Lines 362-376: build [newMap] from the live list and look for the
    invite whose use count went up. *)
Definition attribute (oldMap : JsMap.t) (fetchedArr : list Invite)
    : JsMap.t * option Used :=
  let newMap := collect_uses fetchedArr JsMap.empty in
  (newMap, scan_entries oldMap fetchedArr newMap).

(** ** The reward ledger (table [invite_rewards]) *)

(** One row of [invite_rewards].  [guild_id], [inviter_id], [joined_id] and
    [joined_at] are NOT NULL; the other columns are nullable, and [paid] is
    always written by the code (0 on insert, 1 by [markPaid]). *)
Record Row := mkRow {
  id : Z;
  guild_id : string;
  invite_code : option string;
  inviter_id : string;
  joined_id : string;
  joined_at : Z;
  paid : Z;
  paid_at : option Z;
  payment_tx : option string
}.

(** The table: its rows in rowid order and the AUTOINCREMENT counter
    (the largest rowid ever handed out, as kept in [sqlite_sequence]). *)
Record Table := mkTable {
  rows : list Row;
  seq : Z
}.

Definition empty_table : Table := mkTable [] 0.

(** Rowid for the next insert: one more than the largest rowid that ever
    existed. *)
Definition next_id (t : Table) : Z :=
  1 + foldr Z.max (seq t) (id <$> rows t).

Definition has_joined (j : string) (t : Table) : bool :=
  bool_decide (j ∈ joined_id <$> rows t).

(** [addPendingInviteRecord]: [INSERT OR IGNORE ... VALUES (?, ?, ?, ?, ?, 0)]
    with [inviteCode || null].  The statement takes the next rowid and
    records it in the AUTOINCREMENT counter before the UNIQUE constraint on
    [joined_id] is checked: when a row for [joinedId] exists no row is
    stored, but the counter has advanced all the same. *)
Definition addPendingInviteRecord (now : Z) (guildId : string)
    (inviteCode : option string) (inviterId joinedId : string)
    (t : Table) : Table :=
  let n := next_id t in
  if has_joined joinedId t then mkTable (rows t) n
  else
    mkTable
      (rows t ++ [mkRow n guildId (js_or inviteCode None) inviterId joinedId
                        now 0 None None])
      n.

(** [markPaid]: [UPDATE ... SET paid = 1, paid_at = ?, payment_tx = ?
    WHERE joined_id = ?] with [txId || null]. *)
Definition set_paid (now : Z) (txId : option string) (r : Row) : Row :=
  mkRow (id r) (guild_id r) (invite_code r) (inviter_id r) (joined_id r)
        (joined_at r) 1 (Some now) (js_or txId None).

Definition markPaid (now : Z) (joinedId : string) (txId : option string)
    (t : Table) : Table :=
  mkTable
    ((λ r, if decide (joined_id r = joinedId) then set_paid now txId r else r)
       <$> rows t)
    (seq t).

(** [removeInviteRecord]: [DELETE FROM invite_rewards WHERE joined_id = ?] *)
Definition removeInviteRecord (joinedId : string) (t : Table) : Table :=
  mkTable (filter (λ r, joined_id r ≠ joinedId) (rows t)) (seq t).

(** [getUnpaidInvites(limit)]: [SELECT * ... WHERE paid = 0 LIMIT ?] *)
Definition getUnpaidInvites (limit : nat) (t : Table) : list Row :=
  take limit (filter (λ r, paid r = 0) (rows t)).

(** Rows of one inviter in one guild ([WHERE guild_id = ? AND inviter_id = ?]). *)
Definition rows_of (guildId inviterId : string) (t : Table) : list Row :=
  filter (λ r, guild_id r = guildId ∧ inviter_id r = inviterId) (rows t).

(** A result row of [getInviterStats]. *)
Record StatRow := mkStatRow {
  s_invite_code : option string;
  joined_count : Z;
  paid_count : Z
}.

Definition sumZ (l : list Z) : Z := foldr Z.add 0 l.

(** The groups of [GROUP BY invite_code]: the invite codes of the selected
    rows, each once (NULL is a group of its own; SQL leaves the order of
    the groups open). *)
Definition groups (l : list Row) : list (option string) :=
  remove_dups (invite_code <$> l).

(** [getInviterStats]: [SELECT invite_code, COUNT( * ), SUM(paid) ...
    GROUP BY invite_code]. *)
Definition getInviterStats (guildId inviterId : string) (t : Table)
    : list StatRow :=
  let sel := rows_of guildId inviterId t in
  (λ c, let grp := filter (λ r, invite_code r = c) sel in
        mkStatRow c (Z.of_nat (length grp)) (sumZ (paid <$> grp)))
    <$> groups sel.

(** [getTotalPaidCountByInviter]: [SELECT COUNT( * ) ... AND paid = 1] *)
Definition getTotalPaidCountByInviter (guildId inviterId : string)
    (t : Table) : Z :=
  Z.of_nat (length (filter (λ r, paid r = 1) (rows_of guildId inviterId t))).

(** The constraints the storage engine maintains: [joined_id] UNIQUE, [id]
    PRIMARY KEY, and no rowid above the AUTOINCREMENT counter. *)
Record table_ok (t : Table) : Prop := {
  ok_joined : NoDup (joined_id <$> rows t);
  ok_ids : NoDup (id <$> rows t);
  ok_seq : ∀ r, r ∈ rows t → id r ≤ seq t
}.

(** ** The payment collaborator *)

(** The JSON body of a payment response, as far as the bot reads it:
    [success] is [Some b] when the field is the boolean [b] and [None] when
    it is absent or not a boolean; [txId] and [tx_id] are nullable. *)
Record Payload := mkPayload {
  success : option bool;
  txId : option string;
  tx_id : option string
}.

(** Outcome of [axios.post(url, body, { timeout: 15000 })]: the promise
    resolves on a 2xx answer ([data] is [None] when [resp.data] is falsy)
    and rejects on a network error, a timeout or any other HTTP status. *)
Inductive AxiosResult :=
  | Resolved (data : option Payload)
  | Rejected (msg : string).

(** What [payViaCard] returns. *)
Record PayRes := mkPayRes {
  pr_success : bool;
  pr_txId : option string;
  pr_data : option Payload
}.

(** [payViaCard], given the outcome of the POST: [inl] is the thrown
    [Error("Payment failed: ...")]. *)
Definition payViaCard (resp : AxiosResult) : string + PayRes :=
  match resp with
  | Resolved (Some data) =>
      if bool_decide (success data = Some true)
      then inr (mkPayRes true (js_or (js_or (txId data) (tx_id data)) None) None)
      else inr (mkPayRes true None (Some data))
  | Resolved None => inr (mkPayRes true None None)
  | Rejected msg => inl ("Payment failed: " +:+ msg)
  end.

(** The [txId] computed in [periodicCheck] from [payRes] (line 232). *)
Definition tx_of (payRes : PayRes) : option string :=
  if truthy (pr_txId payRes) then pr_txId payRes
  else
    match pr_data payRes with
    | Some d =>
        if truthy (js_or (txId d) (tx_id d)) then js_or (txId d) (tx_id d)
        else None
    | None => None
    end.

(** One request sent to the payment API, tagged with the ledger row it was
    sent for: [{ cardCode, toId, amount }]. *)
Record PayCall := mkPayCall {
  pc_row : Row;
  pc_cardCode : string;
  pc_toId : string;
  pc_amount : float
}.

(** What the outside world answers while a pass handles a given row:
    whether [client.guilds.fetch(row.guild_id)] and
    [guild.members.fetch(row.joined_id)] resolve, the outcome of the payment
    POST, and [Date.now()] when [markPaid] runs. *)
Record World := mkWorld {
  guild_fetch : Row → bool;
  member_fetch : Row → bool;
  pay_response : Row → AxiosResult;
  clock : Row → Z
}.

(** ** Numbers: [Math.trunc] and [truncateDecimals] on doubles *)

(** [Number(n)] for a non-negative integer count. *)
Definition Z2float (n : Z) : float :=
  if bool_decide (n < 0) then PrimFloat.opp (PrimFloat.of_uint63 (Uint63.of_Z (- n)))
  else PrimFloat.of_uint63 (Uint63.of_Z n).

(** [Math.trunc]: drop the fractional bits of the mantissa. *)
Definition js_trunc (x : float) : float :=
  match Prim2SF x with
  | S754_finite s m e =>
      if bool_decide (0 ≤ e) then x
      else
        let q := Z2float (Z.shiftr (Zpos m) (- e)) in
        if s then PrimFloat.opp q else q
  | _ => x
  end.

(** [truncateDecimals(num, digits)] for a whole number of digits, which
    is all the bot asks for; [Math.pow(10, digits)] is exact for
    the small [digits] the bot uses (always 8). *)
Definition truncateDecimals (num : float) (digits : nat) : float :=
  let factor := Z2float (10 ^ Z.of_nat digits) in
  PrimFloat.div (js_trunc (PrimFloat.mul num factor)) factor.

(** [Number('0.00001000')], the default [WORTH]. *)
Definition DEFAULT_WORTH : float := 0x1.4f8b588e368f1p-17%float.

(** ** The bot *)

Record Bot := mkBot {
  invitesCache : InvitesCache;
  db : Table
}.

Section Config.

(** [RECEIVER_CARD] and [Number(WORTH)] from the environment. *)
Variable RECEIVER_CARD : string.
Variable WORTH : float.

(** The body of the [for (const row of pending)] loop of [periodicCheck]:
    the ledger and the calls made so far go in and come out. *)
Definition process_row (w : World) (st : Table * list PayCall) (row : Row)
    : Table * list PayCall :=
  let (t, calls) := st in
  if negb (guild_fetch w row) then (removeInviteRecord (joined_id row) t, calls)
  else if negb (member_fetch w row) then
    (removeInviteRecord (joined_id row) t, calls)
  else
    let call := mkPayCall row RECEIVER_CARD (inviter_id row) WORTH in
    match payViaCard (pay_response w row) with
    | inr payRes =>
        (markPaid (clock w row) (joined_id row) (tx_of payRes) t,
         calls ++ [call])
    | inl _ => (t, calls ++ [call])
    end.

(** [periodicCheck]: one reconciliation pass over the batch read at its
    start. *)
Definition periodicCheck (w : World) (t : Table) : Table * list PayCall :=
  foldl (process_row w) (t, []) (getUnpaidInvites 2000 t).

(** [client.on('guildMemberAdd')]: [fetched] is the outcome of
    [guild.invites.fetch()]; when it throws the handler's [catch] leaves
    everything as it was. *)
Definition guildMemberAdd (guildId memberId : string)
    (fetched : option (list Invite)) (now : Z) (b : Bot) : Bot :=
  match fetched with
  | None => b
  | Some fetchedArr =>
      let oldMap := cached (invitesCache b) guildId in
      let (newMap, used) := attribute oldMap fetchedArr in
      let cache' := <[guildId := newMap]> (invitesCache b) in
      match used with
      | None => mkBot cache' (db b)
      | Some u =>
          mkBot cache'
            (addPendingInviteRecord now guildId (Some (u_code u))
               (js_or_str (u_inviterId u) "(unknown)") memberId (db b))
      end
  end.

(** [handleInvitesCommand]: the number shown after "Total de coins
    arrecadado", [None] when the inviter has no rows. *)
Definition handleInvitesCommand (guildId targetId : string) (t : Table)
    : option float :=
  let stats := getInviterStats guildId targetId t in
  match stats with
  | [] => None
  | _ =>
      let totalPaidCount := foldl (λ acc row, acc + paid_count row) 0 stats in
      Some (truncateDecimals (PrimFloat.mul (Z2float totalPaidCount) WORTH) 8)
  end.

(** What can happen to the bot, one event at a time. *)
Inductive Input :=
  | InInviteCreate (guild : option string) (c : string) (u : option Z)
  | InInviteDelete (guild : option string) (c : string)
  | InRefresh (guildId : string) (fetched : option (list Invite))
  | InMemberAdd (guildId memberId : string)
      (fetched : option (list Invite)) (now : Z)
  | InTick (w : World).

Definition step (b : Bot) (i : Input) : Bot * list PayCall :=
  match i with
  | InInviteCreate g c u => (mkBot (inviteCreate g c u (invitesCache b)) (db b), [])
  | InInviteDelete g c => (mkBot (inviteDelete g c (invitesCache b)) (db b), [])
  | InRefresh g f => (mkBot (refreshGuildInvites g f (invitesCache b)).1 (db b), [])
  | InMemberAdd g m f now => (guildMemberAdd g m f now b, [])
  | InTick w =>
      let (t, calls) := periodicCheck w (db b) in
      (mkBot (invitesCache b) t, calls)
  end.

(** A run of the bot: the final state and every payment request made. *)
Fixpoint run (b : Bot) (inputs : list Input) : Bot * list PayCall :=
  match inputs with
  | [] => (b, [])
  | i :: rest =>
      let (b1, calls1) := step b i in
      let (b2, calls2) := run b1 rest in
      (b2, calls1 ++ calls2)
  end.

End Config.

(** ** Auxiliary notions used in the statements *)

(** The keys seen so far, extended by [k] unless already there. *)
Definition see (acc : list string) (k : string) : list string :=
  if decide (k ∈ acc) then acc else acc ++ [k].

(** Following the specification's wording of the attribution rule: the
    first invite of the live list, in the order returned, whose use count in
    [newMap] exceeds its count in [oldMap] (absent codes count 0). *)
Definition first_increased (oldMap newMap : JsMap.t) (live : list Invite)
    : option Invite :=
  find (λ inv, bool_decide (JsMap.count oldMap (code inv) <
                            JsMap.count newMap (code inv))) live.

(** The [used] object built from an invite: its code and its owner. *)
Definition used_from (inv : Invite) : Used := mkUsed (code inv) (inviter inv).

(** The three mutations of the ledger, as one type of operations. *)
Inductive LedgerOp :=
  | OpInsertPending (now : Z) (guildId : string) (inviteCode : option string)
      (inviterId joinedId : string)
  | OpMarkPaid (now : Z) (joinedId : string) (txId : option string)
  | OpDelete (joinedId : string).

Definition apply_op (t : Table) (op : LedgerOp) : Table :=
  match op with
  | OpInsertPending now g c i j => addPendingInviteRecord now g c i j t
  | OpMarkPaid now j tx => markPaid now j tx t
  | OpDelete j => removeInviteRecord j t
  end.

(** The lifecycle invariant of the specification: a pending row carries
    neither a payment time nor a transaction id. *)
Definition lifecycle_ok (t : Table) : Prop :=
  ∀ r, r ∈ rows t → paid r = 0 → paid_at r = None ∧ payment_tx r = None.

(** The rows stored for one joined member. *)
Definition rows_for (j : string) (t : Table) : list Row :=
  filter (λ r, joined_id r = j) (rows t).

(** A pass attempts a payment for a row when both the group and the member
    resolve. *)
Definition attempted (w : World) (r : Row) : bool :=
  guild_fetch w r && member_fetch w r.

(** What a pass leaves of the rows [old] of the joined member of [r] once it
    has handled [r]: nothing when the group or the member is gone, the rows
    marked paid when [payViaCard] returns, the rows as they were when it
    throws. *)
Definition outcome (w : World) (r : Row) (old : list Row) : list Row :=
  if attempted w r then
    match payViaCard (pay_response w r) with
    | inr payRes => set_paid (clock w r) (tx_of payRes) <$> old
    | inl _ => old
    end
  else [].

(** The member [j] has a record and it is paid. *)
Definition settled (j : string) (t : Table) : Prop :=
  rows_for j t ≠ [] ∧ ∀ r, r ∈ rows_for j t → paid r = 1.

(** The first invite of the live list whose count in the fresh map is
    positive. *)
Definition first_positive (newMap : JsMap.t) (live : list Invite)
    : option Invite :=
  find (λ inv, bool_decide (0 < JsMap.count newMap (code inv))) live.

(** The double nearest to 0.00003 (JavaScript prints it as [0.00003]). *)
Definition THREE_REWARDS : float := 0x1.f75104d551d69p-16%float.

(** The integers [0, 1, ..., n - 1]. *)
Definition upto (n : nat) : list Z := Z.of_nat <$> List.seq 0%nat n.

(** For a count [n], whether [truncateDecimals(n * 0.00001, 8)] is the
    double nearest to the decimal value n / 100000. *)
Definition total_exact (n : Z) : bool :=
  PrimFloat.eqb (truncateDecimals (PrimFloat.mul (Z2float n) DEFAULT_WORTH) 8)
                (PrimFloat.div (Z2float n) (Z2float 100000)).

(** Following the specification's wording of the reward total: the paid
    count times a reward written as the decimal [num / 10 ^ scale],
    truncated to 8 decimal places; the result is counted in units of
    10^-8. *)
Definition exact_total_units (paid_count num : Z) (scale : nat) : Z :=
  (paid_count * num * 10 ^ 8) `quot` (10 ^ Z.of_nat scale).

(** The double nearest to the decimal [num / 10 ^ scale], which is what
    [Number] gives for the string of that decimal (the quotient of two
    integers below 2^53 is correctly rounded). *)
Definition decimal_to_double (num : Z) (scale : nat) : float :=
  PrimFloat.div (Z2float num) (Z2float (10 ^ Z.of_nat scale)).

(** [Number('0.00000003')], a reward of three units of 10^-8. *)
Definition SMALL_WORTH : float := 0x1.01b2b29a4692bp-25%float.

(** ** Sample data *)

Definition lifecycle_sample : Table :=
  mkTable [mkRow 1 "g" (Some "A") "u1" "m1" 100 1 (Some 700) None;
           mkRow 2 "g" (Some "A") "u1" "m2" 200 0 None None] 2.

(** One pending record, and the world in which its group and member
    resolve and the payment POST has the outcome [resp]. *)
Definition pending_row : Row :=
  mkRow 1 "g" (Some "A") "u1" "m1" 100 0 None None.

Definition pending_table : Table := mkTable [pending_row] 1.

Definition world_answering (resp : AxiosResult) : World :=
  mkWorld (λ _, true) (λ _, true) (λ _, resp) (λ _, 777).

(** Three paid joins and a pending one, all brought by the same inviter. *)
Definition stats_sample : Table :=
  mkTable [mkRow 1 "g" (Some "A") "u1" "m1" 100 1 (Some 700) (Some "t1");
           mkRow 2 "g" (Some "B") "u1" "m2" 200 1 (Some 700) None;
           mkRow 3 "g" None "u1" "m3" 300 1 (Some 800) None;
           mkRow 4 "g" (Some "A") "u1" "m4" 400 0 None None] 4.

(** ** The log-channel configuration (table [guild_config]) *)

(** [guild_config]: [guild_id] is the primary key, [log_channel_id] is
    nullable. *)
Abbreviation GuildConfig := (gmap string (option string)).

(** [setLogChannel]: [INSERT ... ON CONFLICT(guild_id) DO UPDATE SET
    log_channel_id = excluded.log_channel_id]. *)
Definition setLogChannel (guildId channelId : string) (cfg : GuildConfig)
    : GuildConfig :=
  <[guildId := Some channelId]> cfg.

(** [clearLogChannel]: [DELETE FROM guild_config WHERE guild_id = ?]. *)
Definition clearLogChannel (guildId : string) (cfg : GuildConfig)
    : GuildConfig :=
  delete guildId cfg.

(** [getLogChannel]: [row ? row.log_channel_id : null]. *)
Definition getLogChannel (guildId : string) (cfg : GuildConfig)
    : option string :=
  match cfg !! guildId with
  | Some row => row
  | None => None
  end.

(** The channel option of [/log], as far as the handler looks at it:
    [channelOption.id], [channelOption.isTextBased()], and whether
    [permissionsFor(me)] exists and has [SendMessages]. *)
Record Channel := mkChannel {
  ch_id : string;
  ch_isTextBased : bool;
  ch_botCanSend : bool
}.

(** A [/log] interaction: the caller's [ManageGuild] and [Administrator]
    permissions, the [set] option and the [clear] option (nullable). *)
Record LogRequest := mkLogRequest {
  lr_manageGuild : bool;
  lr_administrator : bool;
  lr_set : option Channel;
  lr_clear : option bool
}.

(** The replies of [handleLogCommand], in source order. *)
Inductive LogReply :=
  | ReplyNeedAdmin
  | ReplyUsage
  | ReplyNotText
  | ReplyNoPermission
  | ReplySet (channelId : string)
  | ReplyCleared.

(** Truthiness of a nullable boolean option. *)
Definition truthy_bool (o : option bool) : bool := default false o.

(** [handleLogCommand]: the reply and the configuration it leaves. *)
Definition handleLogCommand (guildId : string) (req : LogRequest)
    (cfg : GuildConfig) : LogReply * GuildConfig :=
  if negb (lr_manageGuild req) && negb (lr_administrator req)
  then (ReplyNeedAdmin, cfg)
  else
    match lr_set req with
    | None =>
        if truthy_bool (lr_clear req)
        then (ReplyCleared, clearLogChannel guildId cfg)
        else (ReplyUsage, cfg)
    | Some ch =>
        if negb (ch_isTextBased ch) then (ReplyNotText, cfg)
        else if negb (ch_botCanSend ch) then (ReplyNoPermission, cfg)
        else (ReplySet (ch_id ch), setLogChannel guildId (ch_id ch) cfg)
    end.

(** ** Startup *)

(** The loop of the [ready] handler over [client.guilds.cache]: one
    [refreshGuildInvites] per known guild, each with the outcome of its
    fetch. *)
Definition ready (guilds : list (string * option (list Invite)))
    (cache : InvitesCache) : InvitesCache :=
  foldl (λ c gf, (refreshGuildInvites gf.1 gf.2 c).1) cache guilds.

(** ** The membership history ([/list]) *)

(** [ORDER BY joined_at DESC]: the later join comes first. *)
Definition joined_later (a b : Row) : Prop := joined_at b ≤ joined_at a.

#[global] Instance joined_later_dec : RelDecision joined_later :=
  λ a b, decide (joined_at b ≤ joined_at a).

(** [getMembersByInviter]: the rows of the inviter in the guild, latest
    join first (SQL leaves the order among equal join times open).  The
    query keeps the columns [joined_id], [joined_at], [paid] and [paid_at];
    the caller reads no other. *)
Definition getMembersByInviter (guildId inviterId : string) (t : Table)
    : list Row :=
  merge_sort joined_later (rows_of guildId inviterId t).

(** [s.padStart(n, c)] for a one-character filler. *)
Fixpoint fill_left (k : nat) (c : ascii) (s : string) : string :=
  match k with
  | O => s
  | S k' => String c (fill_left k' c s)
  end.

Definition padStart (n : nat) (c : ascii) (s : string) : string :=
  fill_left (n - String.length s) c s.

(** [msToMMSS(ms)] for an integer [ms]: [Math.floor] is the floor division
    of [Z] and [%] is the truncating remainder. *)
Definition msToMMSS (ms : Z) : string :=
  let totalSec := ms `div` 1000 in
  let m := totalSec `div` 60 in
  let s := totalSec `rem` 60 in
  pretty m +:+ ":" +:+ padStart 2 "0"%char (pretty s) +:+ "m".

(** The marker shown for one member in [handleListCommand]. *)
Definition list_marker (CHECK_INTERVAL_MS now : Z) (m : Row) : string :=
  if decide (paid m = 1) then "✅ Pago"
  else
    let elapsed := now - joined_at m in
    let remaining := CHECK_INTERVAL_MS - elapsed in
    if decide (remaining ≤ 0)
    then "⌛ Aguardando verificação (próxima execução)"
    else msToMMSS remaining +:+ " para o reward".

(** [handleListCommand]: the embed fields (name, value), [None] when the
    inviter has brought nobody. *)
Definition handleListCommand (CHECK_INTERVAL_MS now : Z)
    (guildId targetId : string) (t : Table) : option (list (string * string)) :=
  let members := getMembersByInviter guildId targetId t in
  match members with
  | [] => None
  | _ =>
      Some ((λ m, ("<@" +:+ joined_id m +:+ ">",
                   list_marker CHECK_INTERVAL_MS now m)) <$> take 25 members)
  end.

(** The decimal digit [d] as a character, and a number below 100 written
    with two digits. *)
Definition digit (d : Z) : ascii := ascii_of_nat (48 + Z.to_nat d).

Definition two_digits (s : Z) : string :=
  String (digit (s `div` 10)) (String (digit (s `mod` 10)) EmptyString).

(** The snapshots of all guilds have pairwise distinct keys, as JavaScript
    maps do. *)
Definition cache_ok (cache : InvitesCache) : Prop :=
  ∀ g m, cache !! g = Some m → NoDup (JsMap.keys m).

(** Two rows are the same record when they agree on everything a record
    keeps for life: rowid, group, invite code, inviter, member and join
    time. *)
Definition same_record (r r' : Row) : Prop :=
  id r' = id r ∧ guild_id r' = guild_id r ∧ invite_code r' = invite_code r ∧
  inviter_id r' = inviter_id r ∧ joined_id r' = joined_id r ∧
  joined_at r' = joined_at r.

(** The ledger operations other than the insert. *)
Definition no_insert (op : LedgerOp) : Prop :=
  match op with
  | OpInsertPending _ _ _ _ _ => False
  | _ => True
  end.

(** The ledger operation a pass performs for a row of its batch, if any. *)
Definition row_ops (w : World) (r : Row) : list LedgerOp :=
  if attempted w r then
    match payViaCard (pay_response w r) with
    | inr payRes => [OpMarkPaid (clock w r) (joined_id r) (tx_of payRes)]
    | inl _ => []
    end
  else [OpDelete (joined_id r)].

(** One paid join. *)
Definition one_paid_sample : Table :=
  mkTable [mkRow 1 "g" (Some "A") "u1" "m1" 100 1 (Some 700) None] 1.

(** * Properties *)

(** ** Insertion-ordered maps *)

Section JsMapFacts.

Implicit Types (m : JsMap.t) (k : string) (v : Z).

Lemma get_set_eq m k v : JsMap.get k (JsMap.set k v m) = Some v.
Proof.
  induction m as [|[k' v'] m IH]; simpl; repeat (case_decide; simpl);
    simplify_eq; done.
Qed.

Lemma get_set_ne m k k' v :
  k ≠ k' → JsMap.get k' (JsMap.set k v m) = JsMap.get k' m.
Proof.
  intros Hne. induction m as [|[k0 v0] m IH]; simpl;
    repeat (case_decide; simpl); simplify_eq; done.
Qed.

Lemma keys_set_in m k v :
  k ∈ JsMap.keys m → JsMap.keys (JsMap.set k v m) = JsMap.keys m.
Proof.
  unfold JsMap.keys. induction m as [|[k' v'] m IH]; simpl.
  - by intros ?%elem_of_nil.
  - intros Hin. case_decide; simpl; [done|]. f_equal. apply IH.
    apply elem_of_cons in Hin as [->|Hin]; done.
Qed.

Lemma keys_set_notin m k v :
  k ∉ JsMap.keys m → JsMap.keys (JsMap.set k v m) = JsMap.keys m ++ [k].
Proof.
  unfold JsMap.keys. induction m as [|[k' v'] m IH]; simpl; [done|].
  intros Hnin. apply not_elem_of_cons in Hnin as [Hne Hnin].
  case_decide; simpl; [done|]. f_equal. by apply IH.
Qed.

Lemma get_entry m k v :
  NoDup (JsMap.keys m) → (k, v) ∈ m → JsMap.get k m = Some v.
Proof.
  unfold JsMap.keys. induction m as [|[k' v'] m IH]; simpl.
  - by intros _ ?%elem_of_nil.
  - intros [Hk' Hnd]%NoDup_cons [Heq|Hin]%elem_of_cons.
    + injection Heq as -> ->. by rewrite decide_True.
    + destruct (decide (k' = k)) as [->|Hne]; [|by apply IH].
      destruct Hk'. apply (list_elem_of_fmap_2 fst _ _ Hin).
  Qed.

End JsMapFacts.

Lemma see_NoDup acc k : NoDup acc → NoDup (see acc k).
Proof.
  intros Hnd. unfold see. destruct (decide (k ∈ acc)); [done|].
  apply NoDup_app. split_and!; [done | | apply NoDup_singleton].
  intros x Hx ->%list_elem_of_singleton. done.
Qed.

Lemma collect_uses_keys invs m :
  JsMap.keys (collect_uses invs m) = fold_left see (code <$> invs) (JsMap.keys m).
Proof.
  unfold collect_uses. revert m.
  induction invs as [|inv invs IH]; intros m; simpl; [done|].
  rewrite IH. f_equal. unfold see. case_decide.
  - by apply keys_set_in.
  - by apply keys_set_notin.
Qed.

Lemma fold_see_NoDup l acc : NoDup acc → NoDup (fold_left see l acc).
Proof.
  revert acc. induction l as [|k l IH]; intros acc Hnd; simpl; [done|].
  by apply IH, see_NoDup.
Qed.

Lemma collect_uses_NoDup invs :
  NoDup (JsMap.keys (collect_uses invs JsMap.empty)).
Proof. rewrite collect_uses_keys. apply fold_see_NoDup, NoDup_nil_2. Qed.

Lemma find_app_or {A} (Q : A → bool) (l1 l2 : list A) :
  find Q (l1 ++ l2) =
  match find Q l1 with Some x => Some x | None => find Q l2 end.
Proof.
  induction l1 as [|x l1 IH]; simpl; [done|]. by destruct (Q x).
Qed.

(** Searching the keys in order of first appearance finds what searching
    the original sequence finds. *)
Lemma find_fold_see (Q : string → bool) l acc :
  find Q (fold_left see l acc) =
  match find Q acc with Some x => Some x | None => find Q l end.
Proof.
  revert acc. induction l as [|k l IH]; intros acc; simpl.
  - by destruct (find Q acc).
  - rewrite IH. unfold see. destruct (decide (k ∈ acc)) as [Hin|Hnin].
    + destruct (find Q acc) eqn:Hf; [done|].
      destruct (Q k) eqn:HQ; [|done].
      apply list_elem_of_In in Hin.
      by rewrite (find_none _ _ Hf _ Hin) in HQ.
    + rewrite find_app_or. destruct (find Q acc); [done|]. simpl.
      by destruct (Q k).
Qed.

Lemma find_fmap {A B} (f : A → B) (Q : B → bool) (l : list A) :
  find Q (f <$> l) = f <$> find (λ x, Q (f x)) l.
Proof.
  induction l as [|x l IH]; simpl; [done|]. by destruct (Q (f x)).
Qed.

Lemma find_by_code_first (Q : string → bool) arr inv :
  find (λ i, Q (code i)) arr = Some inv →
  find_by_code (code inv) arr = Some inv.
Proof.
  unfold find_by_code. induction arr as [|i arr IH]; simpl; [done|].
  destruct (Q (code i)) eqn:HQ.
  - intros [= ->]. by rewrite bool_decide_eq_true_2.
  - intros Hf. rewrite bool_decide_eq_false_2; [by apply IH|].
    intros Heq. apply find_some in Hf as [_ HQi].
    rewrite <- Heq in HQi. congruence.
Qed.

Lemma scan_entries_find oldMap arr (N : string → Z) entries :
  (∀ c u, (c, u) ∈ entries → u = N c) →
  scan_entries oldMap arr entries =
  (λ c, used_of c (find_by_code c arr)) <$>
    find (λ c, bool_decide (JsMap.count oldMap c < N c)) entries.*1.
Proof.
  induction entries as [|[c u] rest IH]; intros HN; simpl; [done|].
  rewrite <- (HN c u) by left.
  destruct (bool_decide (JsMap.count oldMap c < u)); [done|].
  apply IH. intros c' u' Hin. apply HN. by right.
Qed.

(** The attribution loop finds exactly the first increased invite. *)
Lemma attribute_spec oldMap fetchedArr :
  attribute oldMap fetchedArr =
  (collect_uses fetchedArr JsMap.empty,
   used_from <$>
     first_increased oldMap (collect_uses fetchedArr JsMap.empty) fetchedArr).
Proof.
  unfold attribute, first_increased. f_equal.
  assert (Hk := collect_uses_keys fetchedArr JsMap.empty).
  assert (Hnd := collect_uses_NoDup fetchedArr).
  set (M := collect_uses fetchedArr JsMap.empty) in *.
  rewrite (scan_entries_find oldMap fetchedArr (JsMap.count M) M).
  - change (M.*1) with (JsMap.keys M).
    rewrite Hk, find_fold_see. simpl.
    rewrite find_fmap.
    destruct (find _ fetchedArr) as [inv|] eqn:Hf; simpl; [|done].
    f_equal. unfold used_of, used_from.
    by rewrite (find_by_code_first
             (λ c, bool_decide (JsMap.count oldMap c < JsMap.count M c)) _ _ Hf).
  - intros c u Hin. unfold JsMap.count.
    by rewrite (get_entry M c u Hnd Hin).
Qed.

(** When the live list has no repeated code, the count of an invite in the
    fresh map is its own [uses || 0]. *)
Lemma collect_uses_get invs m c :
  JsMap.get c (collect_uses invs m) =
  match find_by_code c (reverse invs) with
  | Some inv => Some (js_or_0 (uses inv))
  | None => JsMap.get c m
  end.
Proof.
  unfold collect_uses, find_by_code. revert m.
  induction invs as [|inv invs IH]; intros m; simpl; [done|].
  rewrite IH, reverse_cons, find_app_or.
  destruct (find _ (reverse invs)); [done|]. simpl.
  case_bool_decide as Hc.
  - subst c. apply get_set_eq.
  - by apply get_set_ne.
Qed.

Lemma count_own_uses invs inv :
  NoDup (code <$> invs) → inv ∈ invs →
  JsMap.count (collect_uses invs JsMap.empty) (code inv) = js_or_0 (uses inv).
Proof.
  intros Hnd Hin. unfold JsMap.count. rewrite collect_uses_get.
  destruct (find_by_code (code inv) (reverse invs)) as [inv'|] eqn:Hf.
  - apply find_some in Hf as [Hin' Hc]. apply bool_decide_eq_true_1 in Hc.
    apply list_elem_of_In in Hin'. rewrite elem_of_reverse in Hin'.
    assert (inv' = inv) as ->; [|done].
    apply list_elem_of_lookup in Hin as [i Hi].
    apply list_elem_of_lookup in Hin' as [i' Hi'].
    assert (i' = i) as Hii.
    { eapply NoDup_lookup; [exact Hnd| |];
        rewrite list_lookup_fmap; [rewrite Hi'|rewrite Hi]; simpl;
        [by rewrite Hc | done]. }
    subst i'. congruence.
  - exfalso. eapply find_none in Hf.
    + apply bool_decide_eq_false_1 in Hf. by apply Hf.
    + apply list_elem_of_In. by rewrite elem_of_reverse.
Qed.

(** The join handler, in terms of the first increased invite. *)
Lemma guildMemberAdd_spec g member fetchedArr now b :
  guildMemberAdd g member (Some fetchedArr) now b =
  mkBot (<[g := collect_uses fetchedArr JsMap.empty]> (invitesCache b))
    match first_increased (cached (invitesCache b) g)
            (collect_uses fetchedArr JsMap.empty) fetchedArr with
    | Some inv =>
        addPendingInviteRecord now g (Some (code inv))
          (js_or_str (inviter inv) "(unknown)") member (db b)
    | None => db b
    end.
Proof.
  unfold guildMemberAdd. rewrite attribute_spec.
  by destruct (first_increased _ _ fetchedArr).
Qed.

(** C1: on a join, attribution scans the live invites in the order returned
    and selects the first one whose use count in the freshly built map is
    strictly above its count in the cached snapshot (absent codes count 0),
    with that invite's owner as inviter; the handler replaces the snapshot
    by the fresh map and records the join for that invite and owner.  In
    particular, with snapshot {A:5, B:2} and live state {A:5, B:3}, the join
    is attributed to B and to B's owner, and the handler stores B and its
    owner in the ledger. *)
Theorem attribution_selects_first_increased :
  (∀ oldMap fetchedArr,
     let newMap := collect_uses fetchedArr JsMap.empty in
     attribute oldMap fetchedArr =
     (newMap, used_from <$> first_increased oldMap newMap fetchedArr)) ∧
  (∀ g member fetchedArr now b,
     let oldMap := cached (invitesCache b) g in
     let newMap := collect_uses fetchedArr JsMap.empty in
     guildMemberAdd g member (Some fetchedArr) now b =
     mkBot (<[g := newMap]> (invitesCache b))
       match first_increased oldMap newMap fetchedArr with
       | Some inv =>
           addPendingInviteRecord now g (Some (code inv))
             (js_or_str (inviter inv) "(unknown)") member (db b)
       | None => db b
       end) ∧
  (∀ ownerA ownerB,
     attribute [("A", 5); ("B", 2)]
       [mkInvite "A" (Some 5) ownerA; mkInvite "B" (Some 3) ownerB] =
     ([("A", 5); ("B", 3)], Some (mkUsed "B" ownerB))) ∧
  (∀ g member now ownerA,
     db (guildMemberAdd g member
           (Some [mkInvite "A" (Some 5) ownerA; mkInvite "B" (Some 3) (Some "u2")])
           now (mkBot {[ g := [("A", 5); ("B", 2)] ]} empty_table)) =
     mkTable [mkRow 1 g (Some "B") "u2" member now 0 None None] 1).
Proof.
  split_and!.
  - intros. apply attribute_spec.
  - intros. apply guildMemberAdd_spec.
  - intros. reflexivity.
  - intros. unfold guildMemberAdd, cached. cbn [invitesCache db].
    by rewrite lookup_singleton_eq.
Qed.

(** ** The ledger *)

Section LedgerFacts.

Implicit Types (t : Table) (r : Row) (j : string).

Lemma has_joined_true j t : has_joined j t = true ↔ j ∈ joined_id <$> rows t.
Proof. unfold has_joined. apply bool_decide_eq_true. Qed.

Lemma next_id_above t r : r ∈ rows t → id r < next_id t.
Proof.
  unfold next_id. generalize (seq t). induction (rows t) as [|r0 l IH]; csimpl.
  - by intros ? ?%elem_of_nil.
  - intros z [->|Hin]%elem_of_cons; [lia|]. specialize (IH z Hin). lia.
Qed.

Lemma next_id_above_seq t : seq t < next_id t.
Proof.
  unfold next_id. induction (rows t) as [|r0 l IH]; csimpl; lia.
Qed.

Lemma add_rows_present now g c i j t :
  j ∈ joined_id <$> rows t →
  addPendingInviteRecord now g c i j t = mkTable (rows t) (next_id t).
Proof.
  intros Hin. unfold addPendingInviteRecord.
  by rewrite (proj2 (has_joined_true j t) Hin).
Qed.

Lemma add_rows_absent now g c i j t :
  j ∉ joined_id <$> rows t →
  addPendingInviteRecord now g c i j t =
  mkTable (rows t ++ [mkRow (next_id t) g (js_or c None) i j now 0 None None])
          (next_id t).
Proof.
  intros Hnin. unfold addPendingInviteRecord.
  destruct (has_joined j t) eqn:Hh; [|done].
  by apply has_joined_true in Hh.
Qed.

Lemma add_has_joined now g c i j t :
  j ∈ joined_id <$> rows (addPendingInviteRecord now g c i j t).
Proof.
  destruct (decide (j ∈ joined_id <$> rows t)) as [Hin|Hnin].
  - by rewrite add_rows_present.
  - rewrite add_rows_absent by done. simpl. rewrite fmap_app.
    apply elem_of_app. right. simpl. by left.
Qed.

Lemma markPaid_ids now j tx t : id <$> rows (markPaid now j tx t) = id <$> rows t.
Proof.
  simpl. rewrite <- list_fmap_compose. apply list_fmap_ext.
  intros ? r _. simpl. by case_decide.
Qed.

Lemma markPaid_joined now j tx t :
  joined_id <$> rows (markPaid now j tx t) = joined_id <$> rows t.
Proof.
  simpl. rewrite <- list_fmap_compose. apply list_fmap_ext.
  intros ? r _. simpl. by case_decide.
Qed.

Lemma markPaid_elem now j tx t r' :
  r' ∈ rows (markPaid now j tx t) ↔
  ∃ r, r ∈ rows t ∧
       r' = if decide (joined_id r = j) then set_paid now tx r else r.
Proof.
  simpl. rewrite list_elem_of_fmap. split; intros (r & H1 & H2); eauto.
Qed.

Lemma remove_elem j t r :
  r ∈ rows (removeInviteRecord j t) ↔ joined_id r ≠ j ∧ r ∈ rows t.
Proof. simpl. by rewrite list_elem_of_filter. Qed.

Lemma filter_fmap_sublist {B} (f : Row → B) (P : Row → Prop)
    `{∀ x, Decision (P x)} (l : list Row) :
  sublist (f <$> filter P l) (f <$> l).
Proof. apply fmap_sublist, sublist_filter. Qed.

(** Uniqueness of a joined member's row, counted. *)
Lemma rows_for_unique j t :
  NoDup (joined_id <$> rows t) → j ∈ joined_id <$> rows t →
  length (rows_for j t) = 1%nat.
Proof.
  unfold rows_for. induction (rows t) as [|r l IH]; simpl.
  - by intros _ ?%elem_of_nil.
  - intros [Hr Hnd]%NoDup_cons Hin. rewrite filter_cons. case_decide as Hj.
    + simpl. f_equal. subst j. clear IH Hin Hnd.
      induction l as [|r' l IH]; [done|]. rewrite filter_cons.
      apply not_elem_of_cons in Hr as [Hne Hr]. rewrite decide_False by done.
      by apply IH.
    + apply IH; [done|]. apply elem_of_cons in Hin as [->|Hin]; done.
Qed.

Lemma rows_for_absent j t :
  j ∉ joined_id <$> rows t → rows_for j t = [].
Proof.
  unfold rows_for. intros Hnin. induction (rows t) as [|r l IH]; [done|].
  simpl in Hnin. apply not_elem_of_cons in Hnin as [Hne Hnin].
  rewrite filter_cons, decide_False by done. by apply IH.
Qed.

End LedgerFacts.

(** C4: a second insert of a pending record for the same joined member
    stores nothing and raises nothing: the rows of the table are left
    exactly as the first insert left them, and exactly one row for that
    member is stored (whatever the other arguments of the two inserts
    are).  The only trace of the second insert is in the AUTOINCREMENT
    counter, which moves on by one. *)
Theorem insert_pending_idempotent t j now1 g1 c1 i1 now2 g2 c2 i2 :
  table_ok t →
  let t1 := addPendingInviteRecord now1 g1 c1 i1 j t in
  let t2 := addPendingInviteRecord now2 g2 c2 i2 j t1 in
  rows t2 = rows t1 ∧ length (rows_for j t2) = 1%nat ∧
  seq t2 = next_id t1.
Proof.
  intros Hok t1 t2.
  assert (t2 = mkTable (rows t1) (next_id t1)) as Heq.
  { unfold t2. apply add_rows_present, add_has_joined. }
  rewrite Heq. split_and!; [done| |done].
  unfold rows_for. cbn [rows]. fold (rows_for j t1). unfold t1.
  destruct (decide (j ∈ joined_id <$> rows t)) as [Hin|Hnin].
  - rewrite add_rows_present by done. unfold rows_for. cbn [rows].
    apply rows_for_unique; [apply Hok | done].
  - rewrite add_rows_absent by done. unfold rows_for. simpl.
    rewrite filter_app. fold (rows_for j t). rewrite rows_for_absent by done.
    rewrite filter_cons, decide_True by done. done.
Qed.

Lemma empty_table_ok : table_ok empty_table.
Proof.
  split; simpl; [apply NoDup_nil_2 | apply NoDup_nil_2 |].
  by intros r ?%elem_of_nil.
Qed.

Lemma insert_pending_idempotent_witness :
  let t1 := addPendingInviteRecord 10 "g" (Some "A") "u1" "m1" empty_table in
  let t2 := addPendingInviteRecord 20 "g" (Some "B") "u2" "m1" t1 in
  rows t2 = rows t1 ∧ length (rows_for "m1" t2) = 1%nat ∧
  seq t2 = next_id t1.
Proof.
  exact (insert_pending_idempotent empty_table "m1" 10 "g" (Some "A") "u1"
           20 "g" (Some "B") "u2" empty_table_ok).
Defined.

(** ** Lifecycle of a record *)

Lemma NoDup_fmap_eq {A B} (f : A → B) (l : list A) (x y : A) :
  NoDup (f <$> l) → x ∈ l → y ∈ l → f x = f y → x = y.
Proof.
  intros Hnd [i Hi]%list_elem_of_lookup [i' Hi']%list_elem_of_lookup Hf.
  assert (i = i') as ->.
  { eapply NoDup_lookup; [exact Hnd| |];
      rewrite list_lookup_fmap; [rewrite Hi|rewrite Hi']; simpl; by rewrite ?Hf. }
  congruence.
Qed.

Section Lifecycle.

Implicit Types (t : Table) (r : Row) (op : LedgerOp).

Lemma apply_op_table_ok t op : table_ok t → table_ok (apply_op t op).
Proof.
  intros [Hj Hi Hs]. destruct op as [now g c i j|now j tx|j]; simpl.
  - destruct (decide (j ∈ joined_id <$> rows t)) as [Hin|Hnin].
    + rewrite add_rows_present by done. split; simpl; [done..|].
      intros r Hr. pose proof (next_id_above t r Hr). lia.
    + rewrite add_rows_absent by done. split; simpl.
      * rewrite fmap_app. apply NoDup_app. split_and!; [done| |].
        -- intros x Hx ->%list_elem_of_singleton. done.
        -- apply NoDup_singleton.
      * rewrite fmap_app. apply NoDup_app. split_and!; [done| |].
        -- intros x (r & -> & Hr)%list_elem_of_fmap Hx%list_elem_of_singleton.
           simpl in Hx. pose proof (next_id_above t r Hr). lia.
        -- apply NoDup_singleton.
      * intros r [Hr| ->%list_elem_of_singleton]%elem_of_app; simpl; [|lia].
        pose proof (next_id_above t r Hr). lia.
  - split.
    + by rewrite markPaid_joined.
    + by rewrite markPaid_ids.
    + intros r' (r & Hr & ->)%markPaid_elem. simpl.
      specialize (Hs r Hr). by case_decide.
  - split; simpl.
    + eapply sublist_NoDup; [done | apply filter_fmap_sublist].
    + eapply sublist_NoDup; [done | apply filter_fmap_sublist].
    + intros r [_ Hr]%list_elem_of_filter. by apply Hs.
Qed.

Lemma apply_op_lifecycle t op : lifecycle_ok t → lifecycle_ok (apply_op t op).
Proof.
  intros Hl. destruct op as [now g c i j|now j tx|j]; simpl.
  - destruct (decide (j ∈ joined_id <$> rows t)) as [Hin|Hnin].
    + rewrite add_rows_present by done. exact Hl.
    + rewrite add_rows_absent by done.
      intros r [Hr| ->%list_elem_of_singleton]%elem_of_app; [by apply Hl | done].
  - intros r' (r & Hr & ->)%markPaid_elem. case_decide; [done | by apply Hl].
  - intros r [_ Hr]%remove_elem. by apply Hl.
Qed.

Lemma apply_op_seq t op : seq t ≤ seq (apply_op t op).
Proof.
  destruct op as [now g c i j|now j tx|j]; simpl; try lia.
  pose proof (next_id_above_seq t).
  unfold addPendingInviteRecord. destruct (has_joined j t); simpl; lia.
Qed.

(** The rows carrying a given rowid stay paid under any operation, as
    long as the rowid has been handed out already. *)
Lemma apply_op_paid t op k :
  k ≤ seq t →
  (∀ r, r ∈ rows t → id r = k → paid r = 1) →
  ∀ r, r ∈ rows (apply_op t op) → id r = k → paid r = 1.
Proof.
  intros Hk Hp. destruct op as [now g c i j|now j tx|j]; simpl.
  - destruct (decide (j ∈ joined_id <$> rows t)) as [Hin|Hnin].
    + rewrite add_rows_present by done. exact Hp.
    + rewrite add_rows_absent by done.
      intros r [Hr| ->%list_elem_of_singleton]%elem_of_app; [by apply Hp|].
      simpl. pose proof (next_id_above_seq t). lia.
  - intros r' (r & Hr & ->)%markPaid_elem. case_decide; [done | by apply Hp].
  - intros r [_ Hr]%remove_elem. by apply Hp.
Qed.

Lemma run_ops_table_ok ops t : table_ok t → table_ok (foldl apply_op t ops).
Proof.
  revert t. induction ops as [|op ops IH]; intros t Hok; simpl; [done|].
  by apply IH, apply_op_table_ok.
Qed.

Lemma run_ops_lifecycle ops t :
  lifecycle_ok t → lifecycle_ok (foldl apply_op t ops).
Proof.
  revert t. induction ops as [|op ops IH]; intros t Hl; simpl; [done|].
  by apply IH, apply_op_lifecycle.
Qed.

Lemma run_ops_paid ops t k :
  k ≤ seq t →
  (∀ r, r ∈ rows t → id r = k → paid r = 1) →
  ∀ r, r ∈ rows (foldl apply_op t ops) → id r = k → paid r = 1.
Proof.
  revert t. induction ops as [|op ops IH]; intros t Hk Hp; simpl; [done|].
  apply IH.
  - pose proof (apply_op_seq t op). lia.
  - by apply apply_op_paid.
Qed.

End Lifecycle.

(** C7: under any sequence of ledger operations (insertPending, markPaid,
    delete) the lifecycle invariant is kept: a pending row has neither
    [paid_at] nor [payment_tx] (a paid row may have them, the transaction
    possibly null), and a record that is paid is never pending again: a row
    with its rowid, if still stored, is paid. *)
Theorem lifecycle_one_directional (ops : list LedgerOp) (t : Table) :
  table_ok t → lifecycle_ok t →
  let t' := foldl apply_op t ops in
  lifecycle_ok t' ∧
  (∀ r r', r ∈ rows t → paid r = 1 → r' ∈ rows t' → id r' = id r → paid r' = 1).
Proof.
  intros Hok Hl t'. split.
  - by apply run_ops_lifecycle.
  - intros r r' Hr Hp Hr' Hid.
    apply (run_ops_paid ops t (id r)); [by apply Hok | | done..].
    intros r0 Hr0 Hid0.
    by rewrite (NoDup_fmap_eq id (rows t) r0 r (ok_ids t Hok) Hr0 Hr Hid0).
Qed.

Lemma lifecycle_sample_ok : table_ok lifecycle_sample ∧ lifecycle_ok lifecycle_sample.
Proof.
  split; [split|]; simpl.
  - apply (bool_decide_unpack _). by vm_compute.
  - apply (bool_decide_unpack _). by vm_compute.
  - intros r Hr. repeat (apply elem_of_cons in Hr as [->|Hr]); simpl; try lia.
    by apply elem_of_nil in Hr.
  - intros r Hr. repeat (apply elem_of_cons in Hr as [->|Hr]); simpl; try done.
    by apply elem_of_nil in Hr.
Qed.

Lemma lifecycle_one_directional_witness :
  let t' := foldl apply_op lifecycle_sample
              [OpInsertPending 300 "g" None "u1" "m1";
               OpMarkPaid 800 "m2" (Some "tx");
               OpDelete "m2";
               OpInsertPending 900 "g" (Some "B") "u2" "m2"] in
  lifecycle_ok t' ∧
  (∀ r r', r ∈ rows lifecycle_sample → paid r = 1 → r' ∈ rows t' →
           id r' = id r → paid r' = 1).
Proof.
  exact (lifecycle_one_directional _ lifecycle_sample
           (proj1 lifecycle_sample_ok) (proj2 lifecycle_sample_ok)).
Defined.

(** ** Reconciliation passes *)

Section Reconciliation.

Variable RECEIVER_CARD : string.
Variable WORTH : float.
Variable w : World.

Implicit Types (t : Table) (r : Row) (j : string) (calls : list PayCall).

Local Arguments process_row : simpl never.

Local Abbreviation handle := (process_row RECEIVER_CARD WORTH w).
Local Abbreviation call_for r := (mkPayCall r RECEIVER_CARD (inviter_id r) WORTH).

Lemma rows_for_elem j t r : r ∈ rows_for j t ↔ joined_id r = j ∧ r ∈ rows t.
Proof. unfold rows_for. by rewrite list_elem_of_filter. Qed.

Lemma rows_for_remove_eq j t : rows_for j (removeInviteRecord j t) = [].
Proof.
  unfold rows_for. simpl. induction (rows t) as [|r l IH]; [done|].
  rewrite filter_cons. case_decide as Hj.
  - by rewrite filter_cons, decide_False.
  - apply IH.
Qed.

Lemma rows_for_remove_ne j j' t :
  j' ≠ j → rows_for j (removeInviteRecord j' t) = rows_for j t.
Proof.
  intros Hne. unfold rows_for. simpl. induction (rows t) as [|r l IH]; [done|].
  rewrite !filter_cons. destruct (decide (joined_id r = j)) as [Hj|Hj].
  - rewrite decide_True by congruence. rewrite filter_cons, decide_True by done.
    by rewrite IH.
  - case_decide; [|done]. by rewrite filter_cons, decide_False.
Qed.

Lemma rows_for_markPaid_eq now j tx t :
  rows_for j (markPaid now j tx t) = set_paid now tx <$> rows_for j t.
Proof.
  unfold rows_for. simpl. induction (rows t) as [|r l IH]; [done|]. csimpl.
  rewrite !filter_cons. destruct (decide (joined_id r = j)) as [Hj|Hj].
  - rewrite decide_True by done. csimpl. by rewrite IH.
  - by rewrite decide_False.
Qed.

Lemma rows_for_markPaid_ne now j j' tx t :
  j' ≠ j → rows_for j (markPaid now j' tx t) = rows_for j t.
Proof.
  intros Hne. unfold rows_for. simpl. induction (rows t) as [|r l IH]; [done|].
  csimpl. rewrite !filter_cons. destruct (decide (joined_id r = j')) as [Hj|Hj].
  - simpl. rewrite !decide_False by congruence. done.
  - destruct (decide (joined_id r = j)); by rewrite IH.
Qed.

(** Handling a row of another member leaves the rows of [j] alone. *)
Lemma handle_other j r t calls :
  joined_id r ≠ j → rows_for j (handle (t, calls) r).1 = rows_for j t.
Proof.
  intros Hne. unfold process_row.
  destruct (guild_fetch w r); simpl; [|by apply rows_for_remove_ne].
  destruct (member_fetch w r); simpl; [|by apply rows_for_remove_ne].
  destruct (payViaCard (pay_response w r)); simpl; [done|].
  by apply rows_for_markPaid_ne.
Qed.

(** Handling the row of [j] itself. *)
Lemma handle_own r t calls :
  rows_for (joined_id r) (handle (t, calls) r).1 =
  outcome w r (rows_for (joined_id r) t).
Proof.
  unfold process_row, outcome, attempted.
  destruct (guild_fetch w r); simpl; [|by apply rows_for_remove_eq].
  destruct (member_fetch w r); simpl; [|by apply rows_for_remove_eq].
  destruct (payViaCard (pay_response w r)); simpl; [done|].
  by apply rows_for_markPaid_eq.
Qed.

Lemma handle_calls r t calls :
  (handle (t, calls) r).2 =
  calls ++ (if attempted w r then [call_for r] else []).
Proof.
  unfold process_row, attempted.
  destruct (guild_fetch w r); simpl; [|by rewrite app_nil_r].
  destruct (member_fetch w r); simpl; [|by rewrite app_nil_r].
  by destruct (payViaCard (pay_response w r)).
Qed.

Lemma handle_seq r t calls : seq (handle (t, calls) r).1 = seq t.
Proof.
  unfold process_row.
  destruct (guild_fetch w r); simpl; [|done].
  destruct (member_fetch w r); simpl; [|done].
  by destruct (payViaCard (pay_response w r)).
Qed.

Lemma batch_other j l t calls :
  (∀ r, r ∈ l → joined_id r ≠ j) →
  rows_for j (foldl handle (t, calls) l).1 = rows_for j t.
Proof.
  revert t calls. induction l as [|r l IH]; intros t calls Hl; simpl; [done|].
  destruct (handle (t, calls) r) as [t1 calls1] eqn:Hh.
  rewrite IH by (intros; apply Hl; by right).
  change t1 with (t1, calls1).1. rewrite <- Hh.
  apply handle_other, Hl. by left.
Qed.

(** The requests of a batch: one per row whose group and member resolve,
    in batch order. *)
Lemma batch_calls l t calls :
  (foldl handle (t, calls) l).2 =
  calls ++ ((λ r, call_for r) <$> filter (λ r, attempted w r = true) l).
Proof.
  revert t calls. induction l as [|r l IH]; intros t calls; simpl.
  - by rewrite app_nil_r.
  - destruct (handle (t, calls) r) as [t1 calls1] eqn:Hh.
    rewrite IH. change calls1 with (t1, calls1).2. rewrite <- Hh.
    rewrite handle_calls, filter_cons.
    destruct (attempted w r); simpl.
    + by rewrite <- app_assoc.
    + by rewrite app_nil_r.
Qed.

Lemma batch_seq l t calls : seq (foldl handle (t, calls) l).1 = seq t.
Proof.
  revert t calls. induction l as [|r l IH]; intros t calls; simpl; [done|].
  destruct (handle (t, calls) r) as [t1 calls1] eqn:Hh.
  rewrite IH. change t1 with (t1, calls1).1. rewrite <- Hh. apply handle_seq.
Qed.

(** In a batch without repeated members, what is left for the member of
    [r] is decided by the handling of [r] alone. *)
Lemma batch_own l r t calls :
  NoDup (joined_id <$> l) → r ∈ l →
  rows_for (joined_id r) (foldl handle (t, calls) l).1 =
  outcome w r (rows_for (joined_id r) t).
Proof.
  intros Hnd (l1 & l2 & ->)%list_elem_of_split.
  rewrite fmap_app in Hnd. apply NoDup_app in Hnd as (_ & H12 & Hnd2).
  csimpl in *. apply NoDup_cons in Hnd2 as [Hr2 _].
  rewrite foldl_app. simpl.
  destruct (foldl handle (t, calls) l1) as [t1 calls1] eqn:H1.
  destruct (handle (t1, calls1) r) as [t2 calls2] eqn:H2.
  rewrite batch_other.
  - change t2 with (t2, calls2).1. rewrite <- H2, handle_own. f_equal.
    change t1 with (t1, calls1).1. rewrite <- H1. apply batch_other.
    intros r' Hr' Heq. apply (H12 (joined_id r')).
    + by apply list_elem_of_fmap_2.
    + rewrite Heq. by left.
  - intros r' Hr' Heq. apply Hr2. rewrite <- Heq. by apply list_elem_of_fmap_2.
Qed.

(** The batch of a pass, read from a well-formed table. *)
Lemma unpaid_elem n t r :
  r ∈ getUnpaidInvites n t → r ∈ rows t ∧ paid r = 0.
Proof.
  unfold getUnpaidInvites. intros Hin.
  pose proof (elem_of_sublist _ _ _ Hin (sublist_take _ _)) as Hin'.
  apply list_elem_of_filter in Hin' as [??]. done.
Qed.

Lemma unpaid_NoDup n t :
  NoDup (joined_id <$> rows t) → NoDup (joined_id <$> getUnpaidInvites n t).
Proof.
  intros Hnd. eapply sublist_NoDup; [exact Hnd|].
  apply fmap_sublist. unfold getUnpaidInvites.
  etrans; [apply sublist_take | apply sublist_filter].
Qed.

Lemma rows_for_single t r :
  NoDup (joined_id <$> rows t) → r ∈ rows t → rows_for (joined_id r) t = [r].
Proof.
  intros Hnd Hr.
  assert (length (rows_for (joined_id r) t) = 1%nat) as Hlen.
  { apply rows_for_unique; [done | by apply list_elem_of_fmap_2]. }
  assert (r ∈ rows_for (joined_id r) t) as Hin by (by apply rows_for_elem).
  destruct (rows_for (joined_id r) t) as [|r0 [|??]]; simplify_eq/=.
  by apply list_elem_of_singleton in Hin as ->.
Qed.

(** What a pass does to a record of its batch. *)
Lemma pass_own t r :
  table_ok t → r ∈ getUnpaidInvites 2000 t →
  rows_for (joined_id r) (periodicCheck RECEIVER_CARD WORTH w t).1 =
  outcome w r [r].
Proof.
  intros Hok Hr. unfold periodicCheck.
  rewrite batch_own; [|apply unpaid_NoDup, Hok | done].
  rewrite rows_for_single; [done | apply Hok |].
  by apply unpaid_elem in Hr as [??].
Qed.

Lemma pass_calls t :
  (periodicCheck RECEIVER_CARD WORTH w t).2 =
  (λ r, call_for r) <$>
    filter (λ r, attempted w r = true) (getUnpaidInvites 2000 t).
Proof. unfold periodicCheck. by rewrite batch_calls. Qed.

Lemma pass_call_elem t pc :
  pc ∈ (periodicCheck RECEIVER_CARD WORTH w t).2 ↔
  ∃ r, pc = call_for r ∧ attempted w r = true ∧
       r ∈ getUnpaidInvites 2000 t.
Proof.
  rewrite pass_calls, list_elem_of_fmap. split.
  - intros (r & -> & [??]%list_elem_of_filter). eauto.
  - intros (r & -> & ? & ?). exists r. split; [done|].
    by apply list_elem_of_filter.
Qed.

End Reconciliation.

(** ** No double payment *)

Section PaidForGood.

Variable RECEIVER_CARD : string.
Variable WORTH : float.
Variable j : string.

Lemma markPaid_settled now tx t :
  j ∈ joined_id <$> rows t → settled j (markPaid now j tx t).
Proof.
  intros (r & Hj & Hr)%list_elem_of_fmap. unfold settled.
  rewrite rows_for_markPaid_eq. split.
  - assert (r ∈ rows_for j t) as Hin by (by apply rows_for_elem).
    destruct (rows_for j t); [by apply elem_of_nil in Hin | done].
  - by intros r' (r0 & -> & _)%list_elem_of_fmap.
Qed.

Lemma settled_joined t : settled j t → j ∈ joined_id <$> rows t.
Proof.
  intros [Hne _]. destruct (rows_for j t) as [|r l] eqn:Hr; [done|].
  assert (r ∈ rows_for j t) as [<- Hin]%rows_for_elem by (rewrite Hr; by left).
  by apply list_elem_of_fmap_2.
Qed.

Lemma add_settled now g c i j' t :
  settled j t → settled j (addPendingInviteRecord now g c i j' t).
Proof.
  intros Hs. destruct (decide (j' ∈ joined_id <$> rows t)) as [Hin|Hnin].
  - rewrite add_rows_present by done. exact Hs.
  - rewrite add_rows_absent by done.
    assert (j' ≠ j) as Hne by (intros ->; by apply Hnin, settled_joined).
    unfold settled, rows_for in *. simpl. rewrite filter_app, filter_cons.
    simpl. rewrite decide_False by done. by rewrite filter_nil, app_nil_r.
Qed.

Lemma join_settled g m f now b :
  settled j (db b) → settled j (db (guildMemberAdd g m f now b)).
Proof.
  intros Hs. unfold guildMemberAdd. destruct f as [arr|]; [|done].
  destruct (attribute _ arr) as [newMap [u|]]; simpl; [|done].
  by apply add_settled.
Qed.

(** A pass neither touches a settled record nor pays for it. *)
Lemma pass_settled w t :
  settled j t →
  settled j (periodicCheck RECEIVER_CARD WORTH w t).1 ∧
  ∀ pc, pc ∈ (periodicCheck RECEIVER_CARD WORTH w t).2 →
        joined_id (pc_row pc) ≠ j.
Proof.
  intros Hs.
  assert (∀ r, r ∈ getUnpaidInvites 2000 t → joined_id r ≠ j) as Hbatch.
  { intros r [Hr Hp]%unpaid_elem Hj.
    assert (paid r = 1) by (by apply Hs, rows_for_elem). lia. }
  split.
  - unfold settled, periodicCheck. by rewrite batch_other.
  - intros pc (r & -> & _ & Hr)%pass_call_elem. simpl. by apply Hbatch.
Qed.

Lemma step_settled b i :
  settled j (db b) →
  settled j (db (step RECEIVER_CARD WORTH b i).1) ∧
  ∀ pc, pc ∈ (step RECEIVER_CARD WORTH b i).2 → joined_id (pc_row pc) ≠ j.
Proof.
  intros Hs. destruct i as [g c u|g c|g f|g m f now|w]; simpl;
    try (split; [done | by intros pc ?%elem_of_nil]).
  - split; [by apply join_settled | by intros pc ?%elem_of_nil].
  - destruct (periodicCheck RECEIVER_CARD WORTH w (db b)) as [t calls] eqn:Hp.
    simpl. pose proof (pass_settled w (db b) Hs) as Hpass.
    by rewrite Hp in Hpass.
Qed.

Lemma run_settled inputs b :
  settled j (db b) →
  ∀ pc, pc ∈ (run RECEIVER_CARD WORTH b inputs).2 → joined_id (pc_row pc) ≠ j.
Proof.
  revert b. induction inputs as [|i inputs IH]; intros b Hs pc; simpl.
  - by intros ?%elem_of_nil.
  - destruct (step RECEIVER_CARD WORTH b i) as [b1 calls1] eqn:Hstep.
    destruct (run RECEIVER_CARD WORTH b1 inputs) as [b2 calls2] eqn:Hrun.
    pose proof (step_settled b i Hs) as [Hs1 Hc1]. rewrite Hstep in Hs1, Hc1.
    simpl in *. intros [Hpc|Hpc]%elem_of_app; [by apply Hc1|].
    apply (IH b1 Hs1). by rewrite Hrun.
Qed.

End PaidForGood.

(** C2: once [markPaid] has succeeded for a joined member (a record exists
    and its paid flag is now 1), no reconciliation pass in any later run of
    the bot (joins, invite events, refreshes and passes in any order) sends a
    payment request for that member's record: a pass only handles the rows
    it selected with [paid = 0]. *)
Theorem no_double_payment (RECEIVER_CARD : string) (WORTH : float)
    (b : Bot) (j : string) (now : Z) (tx : option string)
    (inputs : list Input) :
  j ∈ joined_id <$> rows (db b) →
  let b1 := mkBot (invitesCache b) (markPaid now j tx (db b)) in
  (∀ r, r ∈ rows (db b1) → joined_id r = j → paid r = 1) ∧
  (∀ pc, pc ∈ (run RECEIVER_CARD WORTH b1 inputs).2 →
         joined_id (pc_row pc) ≠ j).
Proof.
  intros Hj b1.
  assert (settled j (db b1)) as Hs by (by apply markPaid_settled).
  split.
  - intros r Hr Hjr. by apply Hs, rows_for_elem.
  - by apply run_settled.
Qed.

Lemma no_double_payment_witness :
  let b := mkBot ∅ lifecycle_sample in
  let w := mkWorld (λ _, true) (λ _, true) (λ _, Resolved None) (λ _, 900) in
  let b1 := mkBot (invitesCache b) (markPaid 800 "m2" (Some "tx") (db b)) in
  (∀ r, r ∈ rows (db b1) → joined_id r = "m2" → paid r = 1) ∧
  (∀ pc, pc ∈ (run "card" DEFAULT_WORTH b1
                 [InMemberAdd "g" "m2" (Some [mkInvite "A" (Some 1) None]) 850;
                  InTick w; InTick w]).2 →
         joined_id (pc_row pc) ≠ "m2").
Proof.
  apply (no_double_payment "card" DEFAULT_WORTH (mkBot ∅ lifecycle_sample) "m2").
  apply (bool_decide_unpack _). by vm_compute.
Defined.

(** ** Outcome of a payment attempt *)

Lemma pending_table_ok : table_ok pending_table.
Proof.
  split; simpl.
  - apply (bool_decide_unpack _). by vm_compute.
  - apply (bool_decide_unpack _). by vm_compute.
  - intros r ->%list_elem_of_singleton. simpl. lia.
Qed.

Lemma pending_row_in_batch : pending_row ∈ getUnpaidInvites 2000 pending_table.
Proof. change (pending_row ∈ [pending_row]). by left. Qed.

(** C3, as stated, fails: a 200 answer whose success flag is [false] is not
    treated as a payment failure; the pass marks the record paid and the
    next pass no longer selects it. *)
Lemma unsuccessful_flag_marks_paid :
  let resp := Resolved (Some (mkPayload (Some false) None None)) in
  let t' := (periodicCheck "card" DEFAULT_WORTH (world_answering resp)
               pending_table).1 in
  pending_row ∈ getUnpaidInvites 2000 pending_table ∧
  rows t' = [mkRow 1 "g" (Some "A") "u1" "m1" 100 1 (Some 777) None] ∧
  getUnpaidInvites 2000 t' = [].
Proof. split_and!; [apply pending_row_in_batch | done | done]. Qed.

(** C3 (amended): for every payment attempt of a pass, a network failure,
    a timeout or a non-2xx HTTP answer (the POST is rejected and
    [payViaCard] throws) is a payment failure: the request was sent, the
    record is left exactly as it was, unpaid, and a next pass selects it
    again with [paid = 0]. *)
Theorem rejected_payment_leaves_pending (RECEIVER_CARD : string)
    (WORTH : float) (w : World) (t : Table) (r : Row) (msg : string) :
  table_ok t →
  r ∈ getUnpaidInvites 2000 t →
  guild_fetch w r = true → member_fetch w r = true →
  pay_response w r = Rejected msg →
  let res := periodicCheck RECEIVER_CARD WORTH w t in
  mkPayCall r RECEIVER_CARD (inviter_id r) WORTH ∈ res.2 ∧
  rows_for (joined_id r) res.1 = [r] ∧
  paid r = 0 ∧
  r ∈ filter (λ r', paid r' = 0) (rows res.1).
Proof.
  intros Hok Hr Hg Hm Hpay res.
  assert (attempted w r = true) as Hatt by (unfold attempted; by rewrite Hg, Hm).
  assert (rows_for (joined_id r) res.1 = [r]) as Hrows.
  { unfold res. rewrite pass_own by done. unfold outcome.
    by rewrite Hatt, Hpay. }
  pose proof (unpaid_elem _ _ _ Hr) as [_ Hp].
  split_and!; [|done..|].
  - apply pass_call_elem. eauto.
  - apply list_elem_of_filter. split; [done|].
    assert (r ∈ rows_for (joined_id r) res.1) as Hin
      by (rewrite Hrows; by left).
    by apply rows_for_elem in Hin as [_ ?].
Qed.

Lemma rejected_payment_leaves_pending_witness :
  let w := world_answering (Rejected "timeout of 15000ms exceeded") in
  let res := periodicCheck "card" DEFAULT_WORTH w pending_table in
  mkPayCall pending_row "card" (inviter_id pending_row) DEFAULT_WORTH ∈ res.2 ∧
  rows_for (joined_id pending_row) res.1 = [pending_row] ∧
  paid pending_row = 0 ∧
  pending_row ∈ filter (λ r', paid r' = 0) (rows res.1).
Proof.
  exact (rejected_payment_leaves_pending "card" DEFAULT_WORTH
           (world_answering (Rejected "timeout of 15000ms exceeded"))
           pending_table pending_row "timeout of 15000ms exceeded"
           pending_table_ok pending_row_in_batch eq_refl eq_refl eq_refl).
Defined.

(** C6, as stated, fails: a 200 answer without a success flag but with a
    transaction id is marked paid with that id, not with a null one. *)
Lemma flagless_response_keeps_tx :
  let resp := Resolved (Some (mkPayload None (Some "T1") None)) in
  let t' := (periodicCheck "card" DEFAULT_WORTH (world_answering resp)
               pending_table).1 in
  pending_row ∈ getUnpaidInvites 2000 pending_table ∧
  rows t' = [mkRow 1 "g" (Some "A") "u1" "m1" 100 1 (Some 777) (Some "T1")] ∧
  payment_tx <$> rows t' ≠ [None].
Proof. split_and!; [apply pending_row_in_batch | done | done]. Qed.

(** The transaction id a 200 answer carries: [data.txId || data.tx_id], and
    null when that is falsy or when there is no body. *)
Lemma tx_of_flagless data :
  (∀ d, data = Some d → success d ≠ Some true) →
  ∀ payRes, payViaCard (Resolved data) = inr payRes →
  js_or (tx_of payRes) None =
  js_or (data ≫= λ d, js_or (txId d) (tx_id d)) None.
Proof.
  intros Hflag payRes. destruct data as [d|]; simpl.
  - rewrite bool_decide_eq_false_2 by (by apply Hflag).
    intros [= <-]. unfold tx_of. simpl.
    generalize (js_or (txId d) (tx_id d)). intros x. unfold js_or.
    destruct (truthy x) eqn:Hx; [by rewrite Hx | done].
  - by intros [= <-].
Qed.

(** C6 (amended): when the payment API answers with HTTP success but no
    success flag in the body (or no body at all), the record is not left
    pending: it is marked paid, with [paid_at] the time of the update, and
    with [payment_tx] the body's [txId] or [tx_id] when one of them is a
    non-empty string, and null otherwise. *)
Theorem flagless_response_marked_paid (RECEIVER_CARD : string)
    (WORTH : float) (w : World) (t : Table) (r : Row)
    (data : option Payload) :
  table_ok t →
  r ∈ getUnpaidInvites 2000 t →
  guild_fetch w r = true → member_fetch w r = true →
  pay_response w r = Resolved data →
  (∀ d, data = Some d → success d = None) →
  let t' := (periodicCheck RECEIVER_CARD WORTH w t).1 in
  ∃ r', rows_for (joined_id r) t' = [r'] ∧
        paid r' = 1 ∧ paid_at r' = Some (clock w r) ∧
        payment_tx r' = js_or (data ≫= λ d, js_or (txId d) (tx_id d)) None ∧
        ((∀ d, data = Some d → truthy (js_or (txId d) (tx_id d)) = false) →
         payment_tx r' = None).
Proof.
  intros Hok Hr Hg Hm Hpay Hflag t'.
  assert (attempted w r = true) as Hatt by (unfold attempted; by rewrite Hg, Hm).
  unfold t'. rewrite pass_own by done. unfold outcome. rewrite Hatt, Hpay.
  destruct (payViaCard (Resolved data)) as [e|payRes] eqn:Hp.
  { destruct data as [d|]; simpl in Hp; [by case_bool_decide | done]. }
  eexists. split; [reflexivity|]. simpl.
  assert (js_or (tx_of payRes) None =
          js_or (data ≫= λ d, js_or (txId d) (tx_id d)) None) as Htx.
  { apply tx_of_flagless; [|done]. intros d Hd. by rewrite (Hflag d Hd). }
  split_and!; [done..|].
  intros Hno. rewrite Htx. destruct data as [d|]; simpl; [|done].
  unfold js_or at 1. by rewrite (Hno d eq_refl).
Qed.

Lemma flagless_response_marked_paid_witness :
  let w := world_answering (Resolved (Some (mkPayload None None None))) in
  let t' := (periodicCheck "card" DEFAULT_WORTH w pending_table).1 in
  ∃ r', rows_for (joined_id pending_row) t' = [r'] ∧
        paid r' = 1 ∧ paid_at r' = Some (clock w pending_row) ∧
        payment_tx r' =
          js_or (Some (mkPayload None None None) ≫=
                 λ d, js_or (txId d) (tx_id d)) None ∧
        ((∀ d, Some (mkPayload None None None) = Some d →
               truthy (js_or (txId d) (tx_id d)) = false) →
         payment_tx r' = None).
Proof.
  apply (flagless_response_marked_paid "card" DEFAULT_WORTH
           (world_answering (Resolved (Some (mkPayload None None None))))
           pending_table pending_row (Some (mkPayload None None None))
           pending_table_ok pending_row_in_batch eq_refl eq_refl eq_refl).
  by intros d [= <-].
Defined.

(** ** One request per record *)

Lemma unpaid_in_batch t r :
  (length (filter (λ r, (paid r = 0)%Z) (rows t)) ≤ 2000)%nat →
  r ∈ rows t → paid r = 0 → r ∈ getUnpaidInvites 2000 t.
Proof.
  intros Hlen Hr Hp. unfold getUnpaidInvites. rewrite take_ge by done.
  by apply list_elem_of_filter.
Qed.

(** A row just appended as pending is in the batch when fewer than 2000
    records were pending before. *)
Lemma appended_in_batch rs sq r :
  (length (filter (λ r, (paid r = 0)%Z) rs) < 2000)%nat → paid r = 0 →
  r ∈ getUnpaidInvites 2000 (mkTable (rs ++ [r]) sq).
Proof.
  intros Hlen Hp. apply unpaid_in_batch; [| |done]; simpl.
  - rewrite filter_app, length_app. simpl.
    rewrite filter_cons, decide_True by done. simpl. lia.
  - apply elem_of_app. right. by left.
Qed.

Lemma filter_unique {A B} `{EqDecision B} (f : A → B) (l : list A) (x : A) :
  NoDup (f <$> l) → x ∈ l → filter (λ y, f y = f x) l = [x].
Proof.
  induction l as [|y l IH]; csimpl; [by intros _ ?%elem_of_nil|].
  intros [Hy Hnd]%NoDup_cons Hin. rewrite filter_cons.
  destruct (decide (f y = f x)) as [Heq|Hne].
  - assert (x = y) as ->.
    { apply elem_of_cons in Hin as [->|Hin]; [done|].
      destruct Hy. rewrite Heq. by apply list_elem_of_fmap_2. }
    f_equal. clear IH Hin Hnd Heq. induction l as [|z l IH]; [done|].
    csimpl in Hy. apply not_elem_of_cons in Hy as [Hne Hy].
    rewrite filter_cons, decide_False by done. by apply IH.
  - apply IH; [done|]. apply elem_of_cons in Hin as [->|Hin]; done.
Qed.

Lemma filter_fmap_pre {A B} (f : A → B) (P : B → Prop)
    `{∀ y, Decision (P y)} (l : list A) :
  filter P (f <$> l) = f <$> filter (λ x, P (f x)) l.
Proof.
  induction l as [|x l IH]; csimpl; [done|]. rewrite !filter_cons, IH.
  by destruct (decide (P (f x))).
Qed.

(** The requests a pass sends for one member of its batch: exactly one,
    when the group and the member are found. *)
Lemma pass_calls_for_member (RECEIVER_CARD : string) (WORTH : float)
    (w : World) (t : Table) (r : Row) :
  table_ok t → r ∈ getUnpaidInvites 2000 t → attempted w r = true →
  filter (λ pc, joined_id (pc_row pc) = joined_id r)
    (periodicCheck RECEIVER_CARD WORTH w t).2 =
  [mkPayCall r RECEIVER_CARD (inviter_id r) WORTH].
Proof.
  intros Hok Hr Hatt. rewrite pass_calls.
  rewrite (filter_fmap_pre (λ r0, mkPayCall r0 RECEIVER_CARD (inviter_id r0) WORTH)
             (λ pc, joined_id (pc_row pc) = joined_id r)).
  simpl. rewrite (filter_unique joined_id); [done| |].
  - eapply sublist_NoDup; [apply (unpaid_NoDup 2000 t), Hok|].
    apply (fmap_sublist joined_id), sublist_filter.
  - by apply list_elem_of_filter.
Qed.

(** ** Forfeiture and rejoin *)

(** C5: a pending record of a pass's batch whose group is unreachable or
    whose member is absent is deleted by the pass, and the pass sends no
    payment request for it.  If the same member joins again afterwards and
    some invite of the live list has a count above the snapshot, the
    handler stores one new pending record for the member: a row with a
    rowid above the deleted one, the new join time, the invite that went up
    and no payment data.  The deleted record is not revived. *)
Theorem absent_member_forfeits (RECEIVER_CARD : string) (WORTH : float)
    (w : World) (t : Table) (r : Row) :
  table_ok t →
  r ∈ getUnpaidInvites 2000 t →
  guild_fetch w r = false ∨ member_fetch w r = false →
  let res := periodicCheck RECEIVER_CARD WORTH w t in
  rows_for (joined_id r) res.1 = [] ∧
  (∀ pc, pc ∈ res.2 → joined_id (pc_row pc) ≠ joined_id r) ∧
  (∀ cache g fetchedArr now inv,
     first_increased (cached cache g)
       (collect_uses fetchedArr JsMap.empty) fetchedArr = Some inv →
     let b' := guildMemberAdd g (joined_id r) (Some fetchedArr) now
                 (mkBot cache res.1) in
     rows_for (joined_id r) (db b') =
       [mkRow (next_id res.1) g (js_or (Some (code inv)) None)
          (js_or_str (inviter inv) "(unknown)") (joined_id r) now 0 None None] ∧
     id r < next_id res.1).
Proof.
  intros Hok Hr Habs res.
  assert (attempted w r = false) as Hatt.
  { unfold attempted. destruct Habs as [-> | ->]; [done | apply andb_false_r]. }
  assert (rows_for (joined_id r) res.1 = []) as Hgone.
  { unfold res. rewrite pass_own by done. unfold outcome. by rewrite Hatt. }
  pose proof (unpaid_elem _ _ _ Hr) as [Hrt _].
  split_and!; [done| |].
  - intros pc (r0 & -> & Hatt0 & Hr0)%pass_call_elem Hj. simpl in Hj.
    pose proof (unpaid_elem _ _ _ Hr0) as [Hr0t _].
    assert (r0 = r) as -> by
      (by apply (NoDup_fmap_eq joined_id (rows t) r0 r (ok_joined t Hok))).
    congruence.
  - intros cache g fetchedArr now inv Hfirst b'.
    unfold b'. rewrite guildMemberAdd_spec. cbn [invitesCache db].
    rewrite Hfirst.
    assert (joined_id r ∉ joined_id <$> rows res.1) as Hnin.
    { intros (r0 & Hj & Hr0)%list_elem_of_fmap.
      assert (r0 ∈ rows_for (joined_id r) res.1) as Hin
        by (by apply rows_for_elem).
      rewrite Hgone in Hin. by apply elem_of_nil in Hin. }
    rewrite add_rows_absent by done. split.
    + unfold rows_for. cbn [rows]. rewrite filter_app.
      fold (rows_for (joined_id r) res.1).
      rewrite Hgone, filter_cons, decide_True by done. reflexivity.
    + pose proof (next_id_above_seq res.1) as Hn.
      assert (seq res.1 = seq t) as Hseq
        by (unfold res, periodicCheck; apply batch_seq).
      pose proof (ok_seq t Hok r Hrt). lia.
Qed.

Lemma absent_member_forfeits_witness :
  let w := mkWorld (λ _, true) (λ _, false) (λ _, Resolved None) (λ _, 777) in
  let res := periodicCheck "card" DEFAULT_WORTH w pending_table in
  let live := [mkInvite "A" (Some 1) (Some "u2")] in
  rows_for (joined_id pending_row) res.1 = [] ∧
  (∀ pc, pc ∈ res.2 → joined_id (pc_row pc) ≠ joined_id pending_row) ∧
  rows_for (joined_id pending_row)
    (db (guildMemberAdd "g" (joined_id pending_row) (Some live) 900
           (mkBot ∅ res.1))) =
    [mkRow 2 "g" (Some "A") "u2" "m1" 900 0 None None] ∧
  id pending_row < 2.
Proof.
  pose proof (absent_member_forfeits "card" DEFAULT_WORTH
           (mkWorld (λ _, true) (λ _, false) (λ _, Resolved None) (λ _, 777))
           pending_table pending_row pending_table_ok pending_row_in_batch
           (or_intror eq_refl)) as (Hgone & Hnone & Hrejoin).
  split_and!; [exact Hgone | exact Hnone | |].
  - exact (proj1 (Hrejoin ∅ "g" [mkInvite "A" (Some 1) (Some "u2")] 900
                    (mkInvite "A" (Some 1) (Some "u2")) eq_refl)).
  - exact (proj2 (Hrejoin ∅ "g" [mkInvite "A" (Some 1) (Some "u2")] 900
                    (mkInvite "A" (Some 1) (Some "u2")) eq_refl)).
Defined.

(** ** Invites without an owner *)

(** C10: when the consumed invite has no owner, the join of a member
    without a record is still recorded, with the literal ["(unknown)"] as
    [inviter_id]; and with fewer than 2000 records pending, the pass that
    then runs on this ledger and finds group and member present has the
    record in its batch and sends exactly one payment request for the
    member, whose destination account is ["(unknown)"]. *)
Theorem unknown_inviter_recorded_and_paid (RECEIVER_CARD : string)
    (WORTH : float) (b : Bot) (g member : string)
    (fetchedArr : list Invite) (now : Z) (inv : Invite) (w : World) :
  table_ok (db b) →
  first_increased (cached (invitesCache b) g)
    (collect_uses fetchedArr JsMap.empty) fetchedArr = Some inv →
  inviter inv = None →
  member ∉ joined_id <$> rows (db b) →
  (length (filter (λ r, (paid r = 0)%Z) (rows (db b))) < 2000)%nat →
  let b' := guildMemberAdd g member (Some fetchedArr) now b in
  let r := mkRow (next_id (db b)) g (js_or (Some (code inv)) None)
             "(unknown)" member now 0 None None in
  guild_fetch w r = true → member_fetch w r = true →
  let res := periodicCheck RECEIVER_CARD WORTH w (db b') in
  rows (db b') = rows (db b) ++ [r] ∧
  r ∈ getUnpaidInvites 2000 (db b') ∧
  filter (λ pc, joined_id (pc_row pc) = member) res.2 =
    [mkPayCall r RECEIVER_CARD "(unknown)" WORTH].
Proof.
  intros Hok Hfirst Hnone Hnin Hlen b' r Hg Hm res.
  assert (db b' = mkTable (rows (db b) ++ [r]) (next_id (db b))) as Hdb.
  { unfold b'. rewrite guildMemberAdd_spec, Hfirst. cbn [db].
    rewrite add_rows_absent by done. by rewrite Hnone. }
  assert (table_ok (db b')) as Hok'.
  { unfold b'. rewrite guildMemberAdd_spec, Hfirst. cbn [db].
    by apply (apply_op_table_ok _ (OpInsertPending now g _ _ member)). }
  assert (r ∈ getUnpaidInvites 2000 (db b')) as Hr
    by (rewrite Hdb; by apply appended_in_batch).
  split_and!; [by rewrite Hdb | done |].
  apply (pass_calls_for_member RECEIVER_CARD WORTH w (db b') r Hok' Hr).
  unfold attempted. by rewrite Hg, Hm.
Qed.

Lemma unknown_inviter_recorded_and_paid_witness :
  let b := mkBot ∅ empty_table in
  let inv := mkInvite "A" (Some 1) None in
  let w := world_answering (Resolved None) in
  let b' := guildMemberAdd "g" "m1" (Some [inv]) 100 b in
  let r := mkRow (next_id (db b)) "g" (js_or (Some (code inv)) None)
             "(unknown)" "m1" 100 0 None None in
  let res := periodicCheck "card" DEFAULT_WORTH w (db b') in
  rows (db b') = rows (db b) ++ [r] ∧
  r ∈ getUnpaidInvites 2000 (db b') ∧
  filter (λ pc, joined_id (pc_row pc) = "m1") res.2 =
    [mkPayCall r "card" "(unknown)" DEFAULT_WORTH].
Proof.
  apply (unknown_inviter_recorded_and_paid "card" DEFAULT_WORTH
           (mkBot ∅ empty_table) "g" "m1" [mkInvite "A" (Some 1) None] 100
           (mkInvite "A" (Some 1) None) (world_answering (Resolved None)));
    try reflexivity.
  - apply empty_table_ok.
  - simpl. apply not_elem_of_nil.
  - simpl. lia.
Defined.

(** ** A failed snapshot refresh *)

Lemma find_ext_in {A} (P Q : A → bool) (l : list A) :
  (∀ x, x ∈ l → P x = Q x) → find P l = find Q l.
Proof.
  induction l as [|x l IH]; intros Heq; simpl; [done|].
  rewrite (Heq x) by left. destruct (Q x); [done|].
  apply IH. intros y Hy. apply Heq. by right.
Qed.

(** C9: when the refresh cannot fetch the live invites of a group, the
    cached snapshot of the group becomes the empty map, whatever it was.
    At the next join in that group every invite with a positive count then
    counts as increased, and the join is attributed to the first such invite
    in the fetched order (with codes that are not repeated, the first invite
    whose own use count is positive); the handler records the join for that
    invite and its owner. *)
Theorem failed_refresh_resets_snapshot (cache : InvitesCache) (g : string) :
  let cache' := (refreshGuildInvites g None cache).1 in
  cache' !! g = Some JsMap.empty ∧
  ∀ (t : Table) (member : string) (fetchedArr : list Invite) (now : Z),
    let newMap := collect_uses fetchedArr JsMap.empty in
    (∀ inv, inv ∈ fetchedArr → 0 < JsMap.count newMap (code inv) →
            JsMap.count (cached cache' g) (code inv) <
            JsMap.count newMap (code inv)) ∧
    attribute (cached cache' g) fetchedArr =
      (newMap, used_from <$> first_positive newMap fetchedArr) ∧
    (NoDup (code <$> fetchedArr) →
     first_positive newMap fetchedArr =
     find (λ inv, bool_decide (0 < js_or_0 (uses inv))) fetchedArr) ∧
    guildMemberAdd g member (Some fetchedArr) now (mkBot cache' t) =
      mkBot (<[g := newMap]> cache')
        match first_positive newMap fetchedArr with
        | Some inv =>
            addPendingInviteRecord now g (Some (code inv))
              (js_or_str (inviter inv) "(unknown)") member t
        | None => t
        end.
Proof.
  intros cache'.
  assert (cache' !! g = Some JsMap.empty) as Hg
    by (unfold cache'; simpl; apply lookup_insert_eq).
  assert (cached cache' g = JsMap.empty) as Hc by (unfold cached; by rewrite Hg).
  split; [done|]. intros t member fetchedArr now newMap.
  assert (attribute (cached cache' g) fetchedArr =
          (newMap, used_from <$> first_positive newMap fetchedArr)) as Hattr.
  { rewrite attribute_spec, Hc. done. }
  split_and!.
  - intros inv _ Hpos. by rewrite Hc.
  - done.
  - intros Hnd. apply find_ext_in. intros inv Hin.
    unfold newMap. by rewrite count_own_uses.
  - rewrite guildMemberAdd_spec. cbn [invitesCache db]. by rewrite Hc.
Qed.

(** ** The reported reward total *)

Section Totals.

Lemma sumZ_app l1 l2 : sumZ (l1 ++ l2) = sumZ l1 + sumZ l2.
Proof. unfold sumZ. induction l1 as [|x l1 IH]; simpl; lia. Qed.

Lemma sumZ_zero l : (∀ x, x ∈ l → x = 0) → sumZ l = 0.
Proof.
  unfold sumZ. induction l as [|x l IH]; intros H0; simpl; [done|].
  rewrite IH by (intros; apply H0; by right). rewrite (H0 x) by left. done.
Qed.

Lemma foldl_paid_count (stats : list StatRow) (a : Z) :
  foldl (λ acc row, acc + paid_count row) a stats =
  a + sumZ (paid_count <$> stats).
Proof.
  revert a. induction stats as [|s stats IH]; intros a; csimpl; [lia|].
  rewrite IH. lia.
Qed.

Lemma sumZ_indicator (ks : list (option string)) (k : option string) (v : Z) :
  NoDup ks → k ∈ ks →
  sumZ ((λ c, if decide (k = c) then v else 0) <$> ks) = v.
Proof.
  induction ks as [|c ks IH]; csimpl.
  - by intros _ ?%elem_of_nil.
  - intros [Hc Hnd]%NoDup_cons Hin. destruct (decide (k = c)) as [->|Hne].
    + assert (sumZ ((λ c0, if decide (c = c0) then v else 0) <$> ks) = 0) as ->;
        [|lia].
      clear IH Hin Hnd. induction ks as [|c' ks IH]; csimpl; [done|].
      apply not_elem_of_cons in Hc as [Hne Hc]. rewrite decide_False by done.
      rewrite IH by done. lia.
    + apply elem_of_cons in Hin as [->|Hin]; [done|]. rewrite IH by done. lia.
Qed.

(** Summing [paid] group by group is summing it over all rows. *)
Lemma sumZ_by_group (ks : list (option string)) (l : list Row) :
  NoDup ks → (∀ r, r ∈ l → invite_code r ∈ ks) →
  sumZ ((λ c, sumZ (paid <$> filter (λ r, invite_code r = c) l)) <$> ks) =
  sumZ (paid <$> l).
Proof.
  intros Hnd. induction l as [|r l IH]; intros Hks.
  - apply sumZ_zero. by intros x (c & -> & _)%list_elem_of_fmap.
  - csimpl. rewrite <- IH by (intros; apply Hks; by right).
    rewrite <- (sumZ_indicator ks (invite_code r) (paid r) Hnd)
      by (apply Hks; by left).
    clear. induction ks as [|c ks IHk]; csimpl; [done|].
    rewrite filter_cons. case_decide; csimpl; lia.
Qed.

Lemma stats_total_paid g i t :
  foldl (λ acc row, acc + paid_count row) 0 (getInviterStats g i t) =
  sumZ (paid <$> rows_of g i t).
Proof.
  rewrite foldl_paid_count. unfold getInviterStats.
  rewrite <- list_fmap_compose. simpl.
  rewrite <- (sumZ_by_group (groups (rows_of g i t)) (rows_of g i t)).
  - done.
  - apply NoDup_remove_dups.
  - intros r Hr. apply elem_of_remove_dups. by apply list_elem_of_fmap_2.
Qed.

Lemma sumZ_flags (l : list Row) :
  (∀ r, r ∈ l → paid r = 0 ∨ paid r = 1) →
  sumZ (paid <$> l) = Z.of_nat (length (filter (λ r, paid r = 1) l)).
Proof.
  induction l as [|r l IH]; intros Hf; csimpl; [done|].
  rewrite IH by (intros; apply Hf; by right). rewrite filter_cons.
  destruct (Hf r) as [H0|H1]; [by left| |].
  - rewrite decide_False by lia. lia.
  - rewrite decide_True by done. simpl. lia.
Qed.

Lemma stats_nonempty g i t :
  rows_of g i t ≠ [] → getInviterStats g i t ≠ [].
Proof.
  unfold getInviterStats, groups. intros Hne Hnil.
  apply fmap_nil_inv in Hnil.
  destruct (rows_of g i t) as [|r l]; [done|].
  assert (invite_code r ∈ remove_dups (invite_code <$> r :: l)) as Hin
    by (apply elem_of_remove_dups; by left).
  rewrite Hnil in Hin. by apply elem_of_nil in Hin.
Qed.

Lemma total_exact_upto (n : nat) (k : Z) :
  forallb total_exact (upto n) = true → 0 ≤ k < Z.of_nat n →
  total_exact k = true.
Proof.
  intros Hall Hk. rewrite forallb_forall in Hall. apply Hall.
  apply list_elem_of_In. unfold upto. apply list_elem_of_fmap.
  exists (Z.to_nat k). split; [lia|].
  apply list_elem_of_In, in_seq. lia.
Qed.

End Totals.

(** The constant is the correctly rounded quotient 3 / 100000. *)
Lemma three_rewards_nearest :
  THREE_REWARDS = PrimFloat.div (Z2float 3) (Z2float 100000).
Proof. reflexivity. Qed.

(** The total shown by the stats query is computed as
    [truncateDecimals(paid_count * WORTH, 8)], where [paid_count] is the
    number of paid records of the inviter in the group; with the reward
    0.00001000 and three paid records this is the double 0.00003, and for
    up to 1000 paid records it is the double nearest to
    paid_count / 100000. *)
Lemma reported_total_formula (WORTH : float) (g i : string) (t : Table) :
  (∀ r, r ∈ rows t → paid r = 0 ∨ paid r = 1) →
  rows_of g i t ≠ [] →
  let paid_total := getTotalPaidCountByInviter g i t in
  handleInvitesCommand WORTH g i t =
    Some (truncateDecimals (PrimFloat.mul (Z2float paid_total) WORTH) 8) ∧
  (paid_total = 3 →
   handleInvitesCommand DEFAULT_WORTH g i t = Some THREE_REWARDS) ∧
  (paid_total ≤ 1000 →
   ∃ x, handleInvitesCommand DEFAULT_WORTH g i t = Some x ∧
        PrimFloat.eqb x (PrimFloat.div (Z2float paid_total) (Z2float 100000))
        = true).
Proof.
  intros Hflags Hne paid_total.
  assert (∀ W, handleInvitesCommand W g i t =
    Some (truncateDecimals (PrimFloat.mul (Z2float paid_total) W) 8)) as Hcmd.
  { intros W. unfold handleInvitesCommand.
    pose proof (stats_nonempty g i t Hne) as Hst.
    pose proof (stats_total_paid g i t) as Htot.
    destruct (getInviterStats g i t) as [|s stats]; [done|].
    rewrite Htot, sumZ_flags; [done|].
    intros r [_ Hr]%list_elem_of_filter. by apply Hflags. }
  split_and!.
  - apply Hcmd.
  - intros H3. rewrite Hcmd, H3. reflexivity.
  - intros Hle. eexists. split; [apply Hcmd|].
    apply (total_exact_upto 1001); [by vm_compute|].
    unfold paid_total, getTotalPaidCountByInviter in *. lia.
Qed.

(** C8: the reported total is not always the paid count times the reward
    truncated to 8 decimal places.  With the reward 0.00000003 and one
    paid record the exact product, truncated, is 3 units of 10^-8, but the
    stats query reports 2 units: the double product 0.00000003 * 10^8 is
    2.9999999999999996 and [Math.trunc] cuts it to 2.  With the reward
    0.00001000 and three paid records the reported total is 0.00003000, as
    the claim has it. *)
Theorem reward_total_rounding_slip :
  SMALL_WORTH = decimal_to_double 3 8 ∧
  getTotalPaidCountByInviter "g" "u1" one_paid_sample = 1 ∧
  exact_total_units 1 3 8 = 3 ∧
  handleInvitesCommand SMALL_WORTH "g" "u1" one_paid_sample =
    Some (decimal_to_double 2 8) ∧
  PrimFloat.eqb (decimal_to_double 2 8)
    (decimal_to_double (exact_total_units 1 3 8) 8) = false ∧
  DEFAULT_WORTH = decimal_to_double 1000 8 ∧
  getTotalPaidCountByInviter "g" "u1" stats_sample = 3 ∧
  handleInvitesCommand DEFAULT_WORTH "g" "u1" stats_sample =
    Some (decimal_to_double (exact_total_units 3 1000 8) 8).
Proof. split_and!; reflexivity. Qed.

(** * Further properties of the code *)

(** ** The snapshot cache under invite events *)

Section CacheFacts.

Implicit Types (m : JsMap.t) (k : string) (cache : InvitesCache).

Lemma set_NoDup m k v : NoDup (JsMap.keys m) → NoDup (JsMap.keys (JsMap.set k v m)).
Proof.
  intros Hnd. destruct (decide (k ∈ JsMap.keys m)) as [Hin|Hnin].
  - by rewrite keys_set_in.
  - rewrite keys_set_notin by done. apply NoDup_app. split_and!; [done| |].
    + by intros x Hx ->%list_elem_of_singleton.
    + apply NoDup_singleton.
Qed.

Lemma delete_keys_sublist m k : sublist (JsMap.keys (JsMap.delete k m)) (JsMap.keys m).
Proof.
  unfold JsMap.keys. induction m as [|[k' v'] m IH]; simpl; [done|].
  case_decide; csimpl.
  - by apply sublist_cons.
  - by apply sublist_skip.
Qed.

Lemma delete_NoDup m k : NoDup (JsMap.keys m) → NoDup (JsMap.keys (JsMap.delete k m)).
Proof. intros Hnd. eapply sublist_NoDup; [done | apply delete_keys_sublist]. Qed.

Lemma get_None_keys m k : JsMap.get k m = None ↔ k ∉ JsMap.keys m.
Proof.
  unfold JsMap.keys. induction m as [|[k' v'] m IH]; simpl.
  - split; [intros _; apply not_elem_of_nil | done].
  - case_decide; csimpl.
    + subst. split; [done|]. intros Hn. destruct Hn. by left.
    + rewrite IH, not_elem_of_cons. split; [by intros ? | by intros [_ ?]].
Qed.

Lemma get_delete_eq m k : NoDup (JsMap.keys m) → JsMap.get k (JsMap.delete k m) = None.
Proof.
  unfold JsMap.keys. induction m as [|[k' v'] m IH]; simpl; [done|].
  intros [Hk Hnd]%NoDup_cons. case_decide; simpl.
  - subst. by apply get_None_keys.
  - rewrite decide_False by done. by apply IH.
Qed.

Lemma get_delete_ne m k k' : k ≠ k' → JsMap.get k' (JsMap.delete k m) = JsMap.get k' m.
Proof.
  intros Hne. induction m as [|[k0 v0] m IH]; simpl; [done|].
  repeat (case_decide; simpl); simplify_eq; done.
Qed.

Lemma collect_uses_keys_NoDup invs m :
  NoDup (JsMap.keys m) → NoDup (JsMap.keys (collect_uses invs m)).
Proof. intros Hnd. rewrite collect_uses_keys. by apply fold_see_NoDup. Qed.

Lemma cached_insert_eq cache g m : cached (<[g := m]> cache) g = m.
Proof. unfold cached. by rewrite lookup_insert_eq. Qed.

Lemma cached_NoDup cache g : cache_ok cache → NoDup (JsMap.keys (cached cache g)).
Proof.
  intros Hok. unfold cached. destruct (cache !! g) as [m|] eqn:Hg; simpl.
  - by apply (Hok g).
  - apply NoDup_nil_2.
Qed.

Lemma cache_ok_insert cache g m :
  cache_ok cache → NoDup (JsMap.keys m) → cache_ok (<[g := m]> cache).
Proof.
  intros Hok Hm g' m'. destruct (decide (g = g')) as [->|Hne].
  - rewrite lookup_insert_eq. by intros [= <-].
  - rewrite lookup_insert_ne by done. apply Hok.
Qed.

End CacheFacts.

(** X1: an [inviteCreate] event for a group sets the cached count of the
    new code to its [uses || 0], leaves the cached counts of the other codes
    and the snapshots of the other groups as they were, and an event
    without a group changes nothing. *)
Theorem invite_create_observed (cache : InvitesCache) (g c : string)
    (u : option Z) :
  let cache' := inviteCreate (Some g) c u cache in
  JsMap.get c (cached cache' g) = Some (js_or_0 u) ∧
  (∀ c', c' ≠ c → JsMap.get c' (cached cache' g) = JsMap.get c' (cached cache g)) ∧
  (∀ g', g' ≠ g → cache' !! g' = cache !! g') ∧
  inviteCreate None c u cache = cache.
Proof.
  intros cache'. unfold cache', inviteCreate. rewrite cached_insert_eq.
  split_and!.
  - apply get_set_eq.
  - intros c' Hne. by apply get_set_ne.
  - intros g' Hne. by apply lookup_insert_ne.
  - done.
Qed.

(** X2: an [inviteDelete] event for a group removes the code from the
    group's snapshot (its count reads 0 again), leaves the other codes and
    the other groups as they were, and an event without a group changes
    nothing. *)
Theorem invite_delete_observed (cache : InvitesCache) (g c : string) :
  cache_ok cache →
  let cache' := inviteDelete (Some g) c cache in
  JsMap.get c (cached cache' g) = None ∧
  JsMap.count (cached cache' g) c = 0 ∧
  (∀ c', c' ≠ c → JsMap.get c' (cached cache' g) = JsMap.get c' (cached cache g)) ∧
  (∀ g', g' ≠ g → cache' !! g' = cache !! g') ∧
  inviteDelete None c cache = cache.
Proof.
  intros Hok cache'. unfold cache', inviteDelete. rewrite cached_insert_eq.
  assert (JsMap.get c (JsMap.delete c (cached cache g)) = None) as Hget
    by (by apply get_delete_eq, cached_NoDup).
  split_and!.
  - done.
  - unfold JsMap.count. by rewrite Hget.
  - intros c' Hne. by apply get_delete_ne.
  - intros g' Hne. by apply lookup_insert_ne.
  - done.
Qed.

Lemma sample_cache_ok : cache_ok {[ "g" := [("A", 5); ("B", 2)] ]}.
Proof.
  intros g m [<- <-]%lookup_singleton_Some.
  apply (bool_decide_unpack _). by vm_compute.
Qed.

Lemma invite_delete_observed_witness :
  let cache := {[ "g" := [("A", 5); ("B", 2)] ]} : InvitesCache in
  let cache' := inviteDelete (Some "g") "A" cache in
  JsMap.get "A" (cached cache' "g") = None ∧
  JsMap.count (cached cache' "g") "A" = 0 ∧
  (∀ c', c' ≠ "A" →
         JsMap.get c' (cached cache' "g") = JsMap.get c' (cached cache "g")) ∧
  (∀ g', g' ≠ "g" → cache' !! g' = cache !! g') ∧
  inviteDelete None "A" cache = cache.
Proof.
  exact (invite_delete_observed _ "g" "A" sample_cache_ok).
Defined.

(** X3: a successful refresh replaces the group's snapshot by the map built
    from the fetched list and returns that same map; with codes that are
    not repeated, the count of every fetched invite is its own
    [uses || 0], and every code that was not fetched counts 0, whatever the
    previous snapshot held. *)
Theorem refresh_records_live_counts (cache : InvitesCache) (g : string)
    (invs : list Invite) :
  NoDup (code <$> invs) →
  let res := refreshGuildInvites g (Some invs) cache in
  cached res.1 g = res.2 ∧
  (∀ inv, inv ∈ invs → JsMap.count res.2 (code inv) = js_or_0 (uses inv)) ∧
  (∀ c, c ∉ code <$> invs → JsMap.count res.2 c = 0) ∧
  (∀ g', g' ≠ g → res.1 !! g' = cache !! g').
Proof.
  intros Hnd res. unfold res. simpl. rewrite cached_insert_eq. split_and!.
  - done.
  - intros inv Hin. by apply count_own_uses.
  - intros c Hc. unfold JsMap.count. rewrite collect_uses_get.
    destruct (find_by_code c (reverse invs)) as [inv|] eqn:Hf; [|done].
    apply find_some in Hf as [Hin Heq]. apply bool_decide_eq_true_1 in Heq.
    apply list_elem_of_In in Hin. rewrite elem_of_reverse in Hin.
    destruct Hc. rewrite <- Heq. by apply list_elem_of_fmap_2.
  - intros g' Hne. by apply lookup_insert_ne.
Qed.

Lemma refresh_records_live_counts_witness :
  let invs := [mkInvite "A" (Some 5) None; mkInvite "B" None (Some "u2")] in
  let res := refreshGuildInvites "g" (Some invs) ∅ in
  cached res.1 "g" = res.2 ∧
  (∀ inv, inv ∈ invs → JsMap.count res.2 (code inv) = js_or_0 (uses inv)) ∧
  (∀ c, c ∉ code <$> invs → JsMap.count res.2 c = 0) ∧
  (∀ g', g' ≠ "g" → res.1 !! g' = (∅ : InvitesCache) !! g').
Proof.
  apply (refresh_records_live_counts ∅ "g"
           [mkInvite "A" (Some 5) None; mkInvite "B" None (Some "u2")]).
  apply (bool_decide_unpack _). by vm_compute.
Defined.

(** ** Joins that change nothing, and what a join can change *)

Lemma find_None_iff {A} (P : A → bool) (l : list A) :
  find P l = None ↔ ∀ x, x ∈ l → P x = false.
Proof.
  split.
  - intros Hf x Hx. apply (find_none _ _ Hf). by apply list_elem_of_In.
  - induction l as [|x l IH]; intros Hall; simpl; [done|].
    rewrite (Hall x) by left. apply IH. intros y Hy. apply Hall. by right.
Qed.

Lemma first_increased_None oldMap newMap live :
  first_increased oldMap newMap live = None ↔
  ∀ inv, inv ∈ live →
         JsMap.count newMap (code inv) ≤ JsMap.count oldMap (code inv).
Proof.
  unfold first_increased. rewrite find_None_iff.
  split; intros H inv Hin; specialize (H inv Hin).
  - apply bool_decide_eq_false_1 in H. lia.
  - apply bool_decide_eq_false_2. lia.
Qed.

(** A join that fetches the list the snapshot was built from. *)
Lemma join_with_current_snapshot g member live now cache t :
  cached cache g = collect_uses live JsMap.empty →
  guildMemberAdd g member (Some live) now (mkBot cache t) =
  mkBot (<[g := collect_uses live JsMap.empty]> cache) t.
Proof.
  intros Hc. rewrite guildMemberAdd_spec. cbn [invitesCache db]. rewrite Hc.
  assert (first_increased (collect_uses live JsMap.empty)
            (collect_uses live JsMap.empty) live = None) as ->; [|done].
  apply first_increased_None. intros. lia.
Qed.

(** X4: a join is left unattributed exactly when no invite of the live list
    has a count above the snapshot's; the handler then adds no record, and
    still replaces the group's snapshot by the fresh map. *)
Theorem attribution_miss_iff (b : Bot) (g member : string)
    (fetchedArr : list Invite) (now : Z) :
  let oldMap := cached (invitesCache b) g in
  let newMap := collect_uses fetchedArr JsMap.empty in
  ((attribute oldMap fetchedArr).2 = None ↔
   ∀ inv, inv ∈ fetchedArr →
          JsMap.count newMap (code inv) ≤ JsMap.count oldMap (code inv)) ∧
  ((attribute oldMap fetchedArr).2 = None →
   guildMemberAdd g member (Some fetchedArr) now b =
   mkBot (<[g := newMap]> (invitesCache b)) (db b)).
Proof.
  intros oldMap newMap. rewrite attribute_spec. cbn [snd].
  fold oldMap newMap. split.
  - rewrite <- first_increased_None.
    by destruct (first_increased oldMap newMap fetchedArr).
  - intros Hnone. rewrite guildMemberAdd_spec. fold oldMap newMap.
    by destruct (first_increased oldMap newMap fetchedArr).
Qed.

(** X5: once the snapshot of a group is current for a live list, a join
    that fetches the same list is not attributed and changes nothing: this
    holds for a second join notification after a first one (for the same or
    another member), and for a join right after a successful refresh. *)
Theorem unchanged_counts_not_attributed (b : Bot) (g : string)
    (live : list Invite) :
  (∀ m1 now1 m2 now2,
     guildMemberAdd g m2 (Some live) now2
       (guildMemberAdd g m1 (Some live) now1 b) =
     guildMemberAdd g m1 (Some live) now1 b) ∧
  (∀ m now,
     let b1 := mkBot (refreshGuildInvites g (Some live) (invitesCache b)).1
                 (db b) in
     guildMemberAdd g m (Some live) now b1 = b1).
Proof.
  split.
  - intros m1 now1 m2 now2. rewrite (guildMemberAdd_spec g m1).
    rewrite (join_with_current_snapshot g m2 live now2
               (<[g := collect_uses live JsMap.empty]> (invitesCache b)))
      by apply cached_insert_eq.
    by rewrite insert_insert_eq.
  - intros m now b1. unfold b1. cbn [refreshGuildInvites fst].
    rewrite (join_with_current_snapshot g m live now
               (<[g := collect_uses live JsMap.empty]> (invitesCache b)))
      by apply cached_insert_eq.
    by rewrite insert_insert_eq.
Qed.

(** X6: whatever it is given, the join handler only ever appends to the
    ledger: the stored rows are kept as they are and in order, at most one
    row is added, and that row is a pending record of the joining member in
    the group, stamped with the join time.  The snapshots of the other
    groups are not touched, and a failed fetch changes nothing at all. *)
Theorem join_only_appends (b : Bot) (g member : string)
    (fetched : option (list Invite)) (now : Z) :
  let b' := guildMemberAdd g member fetched now b in
  (∃ extra, rows (db b') = rows (db b) ++ extra ∧
            (length extra ≤ 1)%nat ∧
            ∀ r, r ∈ extra →
                 joined_id r = member ∧ guild_id r = g ∧ joined_at r = now ∧
                 paid r = 0 ∧ paid_at r = None ∧ payment_tx r = None ∧
                 member ∉ joined_id <$> rows (db b)) ∧
  (∀ g', g' ≠ g → invitesCache b' !! g' = invitesCache b !! g') ∧
  (fetched = None → b' = b).
Proof.
  intros b'. unfold b'. destruct fetched as [live|].
  - rewrite guildMemberAdd_spec. cbn [invitesCache db]. split_and!.
    + destruct (first_increased _ _ live) as [inv|].
      * destruct (decide (member ∈ joined_id <$> rows (db b))) as [Hin|Hnin].
        -- rewrite add_rows_present by done. exists []. rewrite app_nil_r.
           split_and!; [done | simpl; lia | by intros r ?%elem_of_nil].
        -- rewrite add_rows_absent by done. eexists. split; [reflexivity|].
           split; [simpl; lia|].
           by intros r ->%list_elem_of_singleton.
      * exists []. rewrite app_nil_r.
        split_and!; [done | simpl; lia | by intros r ?%elem_of_nil].
    + intros g' Hne. by apply lookup_insert_ne.
    + done.
  - simpl. split_and!; [|done..]. exists []. rewrite app_nil_r.
    split_and!; [done | simpl; lia | by intros r ?%elem_of_nil].
Qed.

(** ** Startup *)

Lemma ready_other guilds cache g :
  g ∉ guilds.*1 → ready guilds cache !! g = cache !! g.
Proof.
  unfold ready. revert cache.
  induction guilds as [|[g0 f0] guilds IH]; intros cache Hnin; csimpl; [done|].
  apply not_elem_of_cons in Hnin as [Hne Hnin]. rewrite IH by done.
  destruct f0; simpl; by apply lookup_insert_ne.
Qed.

(** X7: after the startup loop every known group has a snapshot: the map
    built from its fetched invites, or the empty map when its fetch failed;
    the groups that are not known keep what they had. *)
Theorem ready_snapshots_every_guild
    (guilds : list (string * option (list Invite))) (cache : InvitesCache) :
  NoDup guilds.*1 →
  (∀ g f, (g, f) ∈ guilds →
     ready guilds cache !! g =
     Some match f with
          | Some invs => collect_uses invs JsMap.empty
          | None => JsMap.empty
          end) ∧
  (∀ g, g ∉ guilds.*1 → ready guilds cache !! g = cache !! g).
Proof.
  intros Hnd. split; [|intros g; apply ready_other].
  revert cache. induction guilds as [|[g0 f0] guilds IH]; intros cache g f Hin.
  - by apply elem_of_nil in Hin.
  - csimpl in Hnd. apply NoDup_cons in Hnd as [Hg0 Hnd].
    apply elem_of_cons in Hin as [[= -> ->]|Hin].
    + unfold ready. simpl. fold (ready guilds).
      change (foldl _ ?c guilds) with (ready guilds c).
      rewrite ready_other by done.
      destruct f0; simpl; apply lookup_insert_eq.
    + unfold ready. simpl. change (foldl _ ?c guilds) with (ready guilds c).
      by apply IH.
Qed.

Lemma ready_snapshots_every_guild_witness :
  let guilds := [("g1", Some [mkInvite "A" (Some 5) None]); ("g2", None)] in
  (∀ g f, (g, f) ∈ guilds →
     ready guilds ∅ !! g =
     Some match f with
          | Some invs => collect_uses invs JsMap.empty
          | None => JsMap.empty
          end) ∧
  (∀ g, g ∉ guilds.*1 → ready guilds ∅ !! g = (∅ : InvitesCache) !! g).
Proof.
  apply (ready_snapshots_every_guild
           [("g1", Some [mkInvite "A" (Some 5) None]); ("g2", None)] ∅).
  apply (bool_decide_unpack _). by vm_compute.
Defined.

(** ** Ledger queries *)

(** X8: [markPaid] and [removeInviteRecord] for a member without a record
    change nothing ([UPDATE] and [DELETE] match no row); in particular a
    record cannot be created by marking it paid. *)
Theorem missing_record_updates_are_noops (t : Table) (j : string)
    (now : Z) (tx : option string) :
  j ∉ joined_id <$> rows t →
  markPaid now j tx t = t ∧ removeInviteRecord j t = t.
Proof.
  intros Hnin. destruct t as [rs sq]. unfold markPaid, removeInviteRecord.
  simpl in *. split; f_equal.
  - induction rs as [|r rs IH]; [done|]. csimpl in *.
    apply not_elem_of_cons in Hnin as [Hne Hnin].
    rewrite decide_False by done. f_equal. by apply IH.
  - induction rs as [|r rs IH]; [done|]. csimpl in *.
    apply not_elem_of_cons in Hnin as [Hne Hnin].
    rewrite filter_cons, decide_True by done. f_equal. by apply IH.
Qed.

Lemma missing_record_updates_are_noops_witness :
  markPaid 800 "m9" (Some "tx") pending_table = pending_table ∧
  removeInviteRecord "m9" pending_table = pending_table.
Proof.
  apply (missing_record_updates_are_noops pending_table "m9" 800 (Some "tx")).
  apply (bool_decide_unpack _). by vm_compute.
Defined.

(** X9: the batch read by [getUnpaidInvites(limit)] has at most [limit]
    rows, holds only stored rows that are unpaid, and holds every unpaid
    row when there are no more than [limit] of them. *)
Theorem unpaid_batch_bounded (limit : nat) (t : Table) :
  (length (getUnpaidInvites limit t) ≤ limit)%nat ∧
  (∀ r, r ∈ getUnpaidInvites limit t → r ∈ rows t ∧ paid r = 0) ∧
  ((length (filter (λ r, (paid r = 0)%Z) (rows t)) ≤ limit)%nat →
   ∀ r, r ∈ rows t → paid r = 0 → r ∈ getUnpaidInvites limit t).
Proof.
  split_and!.
  - unfold getUnpaidInvites. rewrite length_take. lia.
  - intros r Hr. by apply unpaid_elem in Hr.
  - intros Hlen r Hr Hp. unfold getUnpaidInvites. rewrite take_ge by done.
    by apply list_elem_of_filter.
Qed.

Section Stats.




End Stats.



(** ** The membership history *)

#[local] Instance joined_later_total : Total joined_later.
Proof. intros a b. unfold joined_later. lia. Qed.

#[local] Instance joined_later_trans : Transitive joined_later.
Proof. intros a b c. unfold joined_later. lia. Qed.

(** X11: [getMembersByInviter] returns exactly the records of the inviter
    in the group, each once, ordered so that no record comes before one
    that joined later. *)
Theorem members_latest_first (g i : string) (t : Table) :
  getMembersByInviter g i t ≡ₚ rows_of g i t ∧
  StronglySorted joined_later (getMembersByInviter g i t) ∧
  (∀ r, r ∈ getMembersByInviter g i t ↔
        r ∈ rows t ∧ guild_id r = g ∧ inviter_id r = i).
Proof.
  unfold getMembersByInviter. split_and!.
  - apply merge_sort_Permutation.
  - apply StronglySorted_merge_sort; apply _.
  - intros r. rewrite merge_sort_Permutation. unfold rows_of.
    rewrite list_elem_of_filter. split; [by intros [[??]?] | by intros (?&?&?)].
Qed.

(** X12: [/list] answers "nobody" exactly when the inviter has no record in
    the group; otherwise it shows one field per record, at most 25 of them
    (the latest joins), each naming a member the inviter brought into that
    group together with that member's marker. *)
Theorem list_reply_bounded (CHECK_INTERVAL_MS now : Z) (g i : string)
    (t : Table) :
  (handleListCommand CHECK_INTERVAL_MS now g i t = None ↔ rows_of g i t = []) ∧
  (∀ fields, handleListCommand CHECK_INTERVAL_MS now g i t = Some fields →
     length fields = min 25 (length (rows_of g i t)) ∧
     ∀ name value, (name, value) ∈ fields →
       ∃ m, m ∈ rows t ∧ guild_id m = g ∧ inviter_id m = i ∧
            name = "<@" +:+ joined_id m +:+ ">" ∧
            value = list_marker CHECK_INTERVAL_MS now m).
Proof.
  pose proof (members_sorted_perm := merge_sort_Permutation joined_later (rows_of g i t)).
  unfold handleListCommand. fold (getMembersByInviter g i t) in members_sorted_perm.
  split.
  - destruct (getMembersByInviter g i t) as [|m ms] eqn:Hm.
    + split; [|done]. intros _. symmetry in members_sorted_perm.
      by apply Permutation_nil_r in members_sorted_perm.
    + split; [done|]. intros Hnil. rewrite Hnil in members_sorted_perm.
      by apply Permutation_nil_r in members_sorted_perm.
  - intros fields Hf.
    assert (fields = (λ m, ("<@" +:+ joined_id m +:+ ">",
                            list_marker CHECK_INTERVAL_MS now m)) <$>
                       take 25 (getMembersByInviter g i t)) as ->.
    { destruct (getMembersByInviter g i t); [done | by injection Hf]. }
    split.
    + rewrite length_fmap, length_take.
      by rewrite (Permutation_length members_sorted_perm).
    + intros name value (m & [= -> ->] & Hin)%list_elem_of_fmap.
      exists m.
      pose proof (elem_of_sublist _ _ _ Hin (sublist_take _ _)) as Hm.
      rewrite members_sorted_perm in Hm.
      apply list_elem_of_filter in Hm as [[??]?]. done.
Qed.

(** ** Remaining-time display *)

Lemma two_digits_pad (s : Z) :
  0 ≤ s < 100 → padStart 2 "0"%char (pretty s) = two_digits s.
Proof.
  intros Hs.
  assert (forallb (λ k, bool_decide
            (padStart 2 "0"%char (pretty k) = two_digits k)) (upto 100) = true)
    as Hall by (by vm_compute).
  rewrite forallb_forall in Hall.
  apply (bool_decide_unpack _), Is_true_true, Hall.
  apply list_elem_of_In. unfold upto. apply list_elem_of_fmap.
  exists (Z.to_nat s). split; [lia|]. apply list_elem_of_In, in_seq. lia.
Qed.

(** X13: for a non-negative number of milliseconds, [msToMMSS] prints the
    whole minutes, a colon, the remaining whole seconds with exactly two
    digits, and the letter m; minutes and seconds together are the whole
    seconds of the input. *)
Theorem remaining_time_format (ms : Z) :
  0 ≤ ms →
  let q := ms `div` 1000 in
  msToMMSS ms = pretty (q `div` 60) +:+ ":" +:+ two_digits (q `mod` 60) +:+ "m" ∧
  0 ≤ q `mod` 60 < 60 ∧
  60 * (q `div` 60) + q `mod` 60 = q.
Proof.
  intros Hms q.
  assert (0 ≤ q) as Hq by (apply Z.div_pos; lia).
  assert (0 ≤ q `mod` 60 < 60) as Hs by (apply Z.mod_pos_bound; lia).
  split; [|split; [done|]].
  - unfold msToMMSS. fold q. rewrite Z.rem_mod_nonneg by lia.
    rewrite two_digits_pad by lia. done.
  - pose proof (Z.div_mod q 60). lia.
Qed.

Lemma remaining_time_format_witness :
  let q := 400000 `div` 1000 in
  msToMMSS 400000 =
    pretty (q `div` 60) +:+ ":" +:+ two_digits (q `mod` 60) +:+ "m" ∧
  0 ≤ q `mod` 60 < 60 ∧
  60 * (q `div` 60) + q `mod` 60 = q.
Proof. apply (remaining_time_format 400000). lia. Defined.

(** ** The payment adapter *)

Lemma payViaCard_resolved (data : option Payload) :
  ∃ payRes, payViaCard (Resolved data) = inr payRes ∧ pr_success payRes = true ∧
            js_or (tx_of payRes) None =
            js_or (data ≫= λ d, js_or (txId d) (tx_id d)) None.
Proof.
  destruct data as [d|]; simpl.
  - case_bool_decide; eexists; (split; [reflexivity|]); (split; [done|]);
      unfold tx_of; simpl; generalize (js_or (txId d) (tx_id d)); intros x;
      unfold js_or; destruct (truthy x) eqn:Hx; simpl; rewrite ?Hx; done.
  - eexists. by split_and!.
Qed.

(** X14: [payViaCard] fails only by throwing, and only when the POST is
    rejected; the error text is "Payment failed: " followed by the cause.
    For every 2xx answer it returns [success: true], and the transaction id
    the scheduler then stores is the body's [txId], else its [tx_id], else
    null (an empty string counts as absent), whatever the success flag of
    the body says. *)
Theorem payViaCard_outcomes (resp : AxiosResult) :
  (∀ msg, resp = Rejected msg →
          payViaCard resp = inl ("Payment failed: " +:+ msg)) ∧
  (∀ data, resp = Resolved data →
     ∃ payRes, payViaCard resp = inr payRes ∧ pr_success payRes = true ∧
               js_or (tx_of payRes) None =
               js_or (data ≫= λ d, js_or (txId d) (tx_id d)) None) ∧
  (∀ e, payViaCard resp = inl e → ∃ msg, resp = Rejected msg).
Proof.
  split_and!.
  - by intros msg ->.
  - intros data ->. apply payViaCard_resolved.
  - intros e. destruct resp as [[d|]|msg]; simpl; [|done|by eauto].
    by case_bool_decide.
Qed.

(** ** What a pass does *)

Section PassFacts.

Variable RECEIVER_CARD : string.
Variable WORTH : float.
Variable w : World.

Implicit Types (t : Table) (r : Row) (calls : list PayCall).

Local Arguments process_row : simpl never.

Lemma handle_as_ops r t calls :
  (process_row RECEIVER_CARD WORTH w (t, calls) r).1 =
  foldl apply_op t (row_ops w r).
Proof.
  unfold process_row, row_ops, attempted.
  destruct (guild_fetch w r); simpl; [|done].
  destruct (member_fetch w r); simpl; [|done].
  by destruct (payViaCard (pay_response w r)).
Qed.

Lemma batch_as_ops l t calls :
  (foldl (process_row RECEIVER_CARD WORTH w) (t, calls) l).1 =
  foldl apply_op t (l ≫= row_ops w).
Proof.
  revert t calls. induction l as [|r l IH]; intros t calls; csimpl; [done|].
  destruct (process_row RECEIVER_CARD WORTH w (t, calls) r) as [t1 calls1] eqn:Hh.
  rewrite IH, foldl_app. f_equal.
  change t1 with (t1, calls1).1. rewrite <- Hh. apply handle_as_ops.
Qed.

Lemma row_ops_no_insert r : Forall no_insert (row_ops w r).
Proof.
  unfold row_ops. destruct (attempted w r).
  - destruct (payViaCard _); repeat constructor.
  - repeat constructor.
Qed.

Lemma batch_ops_no_insert l : Forall no_insert (l ≫= row_ops w).
Proof.
  induction l as [|r l IH]; csimpl; [constructor|].
  apply Forall_app. split; [apply row_ops_no_insert | done].
Qed.

End PassFacts.

Lemma same_record_refl r : same_record r r.
Proof. by repeat split. Qed.

Lemma apply_op_same_record t op r' :
  no_insert op → r' ∈ rows (apply_op t op) →
  ∃ r, r ∈ rows t ∧ same_record r r'.
Proof.
  destruct op as [now g c i j|now j tx|j]; simpl; [done| |]; intros _.
  - intros (r & Hr & ->)%markPaid_elem. exists r. split; [done|].
    case_decide; by repeat split.
  - intros [_ Hr]%remove_elem. exists r'. split; [done | apply same_record_refl].
Qed.

Lemma run_ops_same_record ops t r' :
  Forall no_insert ops → r' ∈ rows (foldl apply_op t ops) →
  ∃ r, r ∈ rows t ∧ same_record r r'.
Proof.
  revert t. induction ops as [|op ops IH]; intros t Hops Hr'; simpl in *.
  - exists r'. split; [done | apply same_record_refl].
  - apply Forall_cons in Hops as [Hop Hops].
    destruct (IH _ Hops Hr') as (r1 & Hr1 & Hs1).
    destruct (apply_op_same_record t op r1 Hop Hr1) as (r & Hr & Hs).
    exists r. split; [done|]. unfold same_record in *.
    destruct Hs as (?&?&?&?&?&?), Hs1 as (?&?&?&?&?&?). repeat split; congruence.
Qed.

(** X15: for every payment attempt of a pass, any 2xx answer of the payment
    API, whatever its body, has the request sent once for the record and
    the record marked paid, with [paid_at] the time of the update and
    [payment_tx] the body's [txId], else its [tx_id], else null; so an
    answer {success: true, txId: T} with a non-empty T stores T. *)
Theorem resolved_payment_marks_paid (RECEIVER_CARD : string) (WORTH : float)
    (w : World) (t : Table) (r : Row) (data : option Payload) :
  table_ok t →
  r ∈ getUnpaidInvites 2000 t →
  guild_fetch w r = true → member_fetch w r = true →
  pay_response w r = Resolved data →
  let res := periodicCheck RECEIVER_CARD WORTH w t in
  mkPayCall r RECEIVER_CARD (inviter_id r) WORTH ∈ res.2 ∧
  rows_for (joined_id r) res.1 =
    [mkRow (id r) (guild_id r) (invite_code r) (inviter_id r) (joined_id r)
           (joined_at r) 1 (Some (clock w r))
           (js_or (data ≫= λ d, js_or (txId d) (tx_id d)) None)] ∧
  (∀ T tx2, data = Some (mkPayload (Some true) (Some T) tx2) → T ≠ "" →
            payment_tx <$> rows_for (joined_id r) res.1 = [Some T]).
Proof.
  intros Hok Hr Hg Hm Hpay res.
  assert (attempted w r = true) as Hatt by (unfold attempted; by rewrite Hg, Hm).
  destruct (payViaCard_resolved data) as (payRes & HpayRes & _ & Htx).
  assert (rows_for (joined_id r) res.1 =
    [mkRow (id r) (guild_id r) (invite_code r) (inviter_id r) (joined_id r)
           (joined_at r) 1 (Some (clock w r))
           (js_or (data ≫= λ d, js_or (txId d) (tx_id d)) None)]) as Hrows.
  { unfold res. rewrite pass_own by done. unfold outcome.
    rewrite Hatt, Hpay, HpayRes. simpl. unfold set_paid. by rewrite Htx. }
  split_and!; [|done|].
  - apply pass_call_elem. eauto.
  - intros T tx2 -> HT. rewrite Hrows.
    assert (truthy (Some T) = true) as HTt
      by (simpl; by rewrite bool_decide_eq_false_2).
    csimpl. unfold js_or. simpl txId. by rewrite !HTt.
Qed.

Lemma resolved_payment_marks_paid_witness :
  let data := Some (mkPayload (Some true) (Some "T7") None) in
  let w := world_answering (Resolved data) in
  let r := pending_row in
  let res := periodicCheck "card" DEFAULT_WORTH w pending_table in
  mkPayCall r "card" (inviter_id r) DEFAULT_WORTH ∈ res.2 ∧
  rows_for (joined_id r) res.1 =
    [mkRow (id r) (guild_id r) (invite_code r) (inviter_id r) (joined_id r)
           (joined_at r) 1 (Some (clock w r))
           (js_or (data ≫= λ d, js_or (txId d) (tx_id d)) None)] ∧
  (∀ T tx2, data = Some (mkPayload (Some true) (Some T) tx2) → T ≠ "" →
            payment_tx <$> rows_for (joined_id r) res.1 = [Some T]).
Proof.
  exact (resolved_payment_marks_paid "card" DEFAULT_WORTH
           (world_answering (Resolved (Some (mkPayload (Some true) (Some "T7") None))))
           pending_table pending_row _
           pending_table_ok pending_row_in_batch eq_refl eq_refl eq_refl).
Defined.

Lemma pass_outside_batch (RECEIVER_CARD : string) (WORTH : float)
    (w : World) (t : Table) (j : string) :
  j ∉ joined_id <$> getUnpaidInvites 2000 t →
  rows_for j (periodicCheck RECEIVER_CARD WORTH w t).1 = rows_for j t.
Proof.
  intros Hj. unfold periodicCheck. apply batch_other.
  intros r Hr Heq. apply Hj. rewrite <- Heq. by apply list_elem_of_fmap_2.
Qed.

(** X16: the requests of one pass are well formed and bounded: each pays
    from the configured card the configured amount to the inviter of an
    unpaid stored record whose group and member were found; there are at
    most 2000 of them, and no member's record is paid for twice in the same
    pass. *)
Theorem pass_requests_well_formed (RECEIVER_CARD : string) (WORTH : float)
    (w : World) (t : Table) :
  table_ok t →
  let calls := (periodicCheck RECEIVER_CARD WORTH w t).2 in
  (∀ pc, pc ∈ calls →
     pc_cardCode pc = RECEIVER_CARD ∧ pc_amount pc = WORTH ∧
     pc_toId pc = inviter_id (pc_row pc) ∧
     pc_row pc ∈ rows t ∧ paid (pc_row pc) = 0 ∧
     guild_fetch w (pc_row pc) = true ∧ member_fetch w (pc_row pc) = true) ∧
  (length calls ≤ 2000)%nat ∧
  NoDup ((λ pc, joined_id (pc_row pc)) <$> calls).
Proof.
  intros Hok calls. split_and!.
  - intros pc (r & -> & Hatt & Hr)%pass_call_elem. simpl.
    apply unpaid_elem in Hr as [??].
    unfold attempted in Hatt. apply andb_true_iff in Hatt as [??]. done.
  - unfold calls. rewrite pass_calls, length_fmap.
    etrans; [apply length_filter|].
    unfold getUnpaidInvites. rewrite length_take. lia.
  - unfold calls. rewrite pass_calls, <- list_fmap_compose.
    eapply sublist_NoDup; [apply (unpaid_NoDup 2000 t), Hok|].
    apply (fmap_sublist joined_id), sublist_filter.
Qed.

Lemma pass_requests_well_formed_witness :
  let w := world_answering (Resolved None) in
  let calls := (periodicCheck "card" DEFAULT_WORTH w pending_table).2 in
  (∀ pc, pc ∈ calls →
     pc_cardCode pc = "card" ∧ pc_amount pc = DEFAULT_WORTH ∧
     pc_toId pc = inviter_id (pc_row pc) ∧
     pc_row pc ∈ rows pending_table ∧ paid (pc_row pc) = 0 ∧
     guild_fetch w (pc_row pc) = true ∧ member_fetch w (pc_row pc) = true) ∧
  (length calls ≤ 2000)%nat ∧
  NoDup ((λ pc, joined_id (pc_row pc)) <$> calls).
Proof.
  exact (pass_requests_well_formed "card" DEFAULT_WORTH
           (world_answering (Resolved None)) pending_table pending_table_ok).
Defined.

(** X17: a pass only marks or deletes records of its batch.  It hands out
    no rowid; every row it leaves is a row it found, with the same rowid,
    group, invite code, inviter, member and join time; the rows of members
    outside the batch are untouched, so every record that was already paid
    is still there, unchanged. *)
Theorem pass_leaves_rest_alone (RECEIVER_CARD : string) (WORTH : float)
    (w : World) (t : Table) :
  table_ok t →
  let t' := (periodicCheck RECEIVER_CARD WORTH w t).1 in
  seq t' = seq t ∧
  (∀ r', r' ∈ rows t' → ∃ r, r ∈ rows t ∧ same_record r r') ∧
  (∀ j, j ∉ joined_id <$> getUnpaidInvites 2000 t →
        rows_for j t' = rows_for j t) ∧
  (∀ r, r ∈ rows t → paid r ≠ 0 → r ∈ rows t').
Proof.
  intros Hok t'.
  assert (∀ j, j ∉ joined_id <$> getUnpaidInvites 2000 t →
               rows_for j t' = rows_for j t) as Hrest.
  { intros j Hj. by apply pass_outside_batch. }
  split_and!.
  - unfold t', periodicCheck. apply batch_seq.
  - intros r' Hr'. unfold t', periodicCheck in Hr'. rewrite batch_as_ops in Hr'.
    exact (run_ops_same_record _ t r'
             (batch_ops_no_insert w (getUnpaidInvites 2000 t)) Hr').
  - done.
  - intros r Hr Hp.
    assert (r ∈ rows_for (joined_id r) t') as Hin; [|by apply rows_for_elem in Hin as [_ ?]].
    rewrite Hrest; [by apply rows_for_elem|].
    intros (r0 & Hj & Hr0)%list_elem_of_fmap.
    pose proof (unpaid_elem _ _ _ Hr0) as [Hr0t Hp0].
    assert (r0 = r) as -> by
      (by apply (NoDup_fmap_eq joined_id (rows t) r0 r (ok_joined t Hok))).
    done.
Qed.

Lemma pass_leaves_rest_alone_witness :
  let w := world_answering (Resolved None) in
  let t' := (periodicCheck "card" DEFAULT_WORTH w stats_sample).1 in
  seq t' = seq stats_sample ∧
  (∀ r', r' ∈ rows t' → ∃ r, r ∈ rows stats_sample ∧ same_record r r') ∧
  (∀ j, j ∉ joined_id <$> getUnpaidInvites 2000 stats_sample →
        rows_for j t' = rows_for j stats_sample) ∧
  (∀ r, r ∈ rows stats_sample → paid r ≠ 0 → r ∈ rows t').
Proof.
  apply (pass_leaves_rest_alone "card" DEFAULT_WORTH
           (world_answering (Resolved None)) stats_sample).
  split; simpl.
  - apply (bool_decide_unpack _). by vm_compute.
  - apply (bool_decide_unpack _). by vm_compute.
  - intros r Hr. repeat (apply elem_of_cons in Hr as [->|Hr]); simpl; try lia.
    by apply elem_of_nil in Hr.
Defined.

(** X18: when no more than 2000 records are pending and no payment POST of
    the pass is rejected, the pass settles its whole backlog: every record
    it leaves is paid, nothing is selected as unpaid any more, and a pass
    run right after it sends no request and changes nothing. *)
Theorem pass_clears_backlog (RECEIVER_CARD : string) (WORTH : float)
    (w : World) (t : Table) :
  table_ok t →
  (length (filter (λ r, (paid r = 0)%Z) (rows t)) ≤ 2000)%nat →
  (∀ r msg, r ∈ getUnpaidInvites 2000 t → guild_fetch w r = true →
            member_fetch w r = true → pay_response w r ≠ Rejected msg) →
  let t' := (periodicCheck RECEIVER_CARD WORTH w t).1 in
  (∀ r', r' ∈ rows t' → paid r' ≠ 0) ∧
  (∀ n, getUnpaidInvites n t' = []) ∧
  (∀ w', periodicCheck RECEIVER_CARD WORTH w' t' = (t', [])).
Proof.
  intros Hok Hlen Hpay t'.
  assert (∀ r', r' ∈ rows t' → paid r' ≠ 0) as Hpaid.
  { intros r' Hr' Hp.
    assert (r' ∈ rows_for (joined_id r') t') as Hin by (by apply rows_for_elem).
    destruct (decide (joined_id r' ∈ joined_id <$> getUnpaidInvites 2000 t))
      as [(r & Hj & Hr)%list_elem_of_fmap|Hnin].
    - unfold t' in Hin. rewrite Hj, pass_own in Hin by done.
      unfold outcome in Hin. destruct (attempted w r) eqn:Hatt;
        [|by apply elem_of_nil in Hin].
      unfold attempted in Hatt. apply andb_true_iff in Hatt as [Hg Hm].
      destruct (pay_response w r) as [data|msg] eqn:Hresp;
        [|by destruct (Hpay r msg Hr Hg Hm)].
      destruct (payViaCard_resolved data) as (payRes & HpR & _).
      rewrite HpR in Hin.
      apply list_elem_of_singleton in Hin. by subst r'.
    - unfold t' in Hin. rewrite pass_outside_batch in Hin by done.
      apply rows_for_elem in Hin as [_ Hin]. apply Hnin.
      apply list_elem_of_fmap_2. unfold getUnpaidInvites.
      rewrite take_ge by done. by apply list_elem_of_filter. }
  assert (∀ n, getUnpaidInvites n t' = []) as Hnone.
  { intros n. unfold getUnpaidInvites.
    assert (filter (λ r, paid r = 0) (rows t') = []) as ->; [|by rewrite take_nil].
    induction (rows t') as [|r l IH]; [done|].
    rewrite filter_cons, decide_False by (apply Hpaid; by left).
    apply IH. intros r' Hr'. apply Hpaid. by right. }
  split_and!; [done..|].
  intros w'. unfold periodicCheck at 1. by rewrite Hnone.
Qed.

Lemma pass_clears_backlog_witness :
  let w := world_answering (Resolved None) in
  let t' := (periodicCheck "card" DEFAULT_WORTH w pending_table).1 in
  (∀ r', r' ∈ rows t' → paid r' ≠ 0) ∧
  (∀ n, getUnpaidInvites n t' = []) ∧
  (∀ w', periodicCheck "card" DEFAULT_WORTH w' t' = (t', [])).
Proof.
  apply (pass_clears_backlog "card" DEFAULT_WORTH
           (world_answering (Resolved None)) pending_table pending_table_ok).
  - simpl. lia.
  - intros r msg _ _ _. done.
Defined.

(** ** Invariants of the running bot *)

Section BotInvariants.

Variable RECEIVER_CARD : string.
Variable WORTH : float.

Lemma step_keeps_ledger b i :
  table_ok (db b) → lifecycle_ok (db b) →
  table_ok (db (step RECEIVER_CARD WORTH b i).1) ∧
  lifecycle_ok (db (step RECEIVER_CARD WORTH b i).1).
Proof.
  intros Hok Hl. destruct i as [g c u|g c|g f|g m f now|w]; simpl; try done.
  - destruct f as [live|]; [|done]. rewrite guildMemberAdd_spec. simpl.
    destruct (first_increased _ _ live) as [inv|]; [|done]. split.
    + by apply (apply_op_table_ok _ (OpInsertPending now g _ _ m)).
    + by apply (apply_op_lifecycle _ (OpInsertPending now g _ _ m)).
  - destruct (periodicCheck RECEIVER_CARD WORTH w (db b)) as [t calls] eqn:Hp.
    simpl. change t with (t, calls).1. rewrite <- Hp. unfold periodicCheck.
    rewrite batch_as_ops. split.
    + by apply run_ops_table_ok.
    + by apply run_ops_lifecycle.
Qed.

Lemma step_keeps_cache b i :
  cache_ok (invitesCache b) →
  cache_ok (invitesCache (step RECEIVER_CARD WORTH b i).1).
Proof.
  intros Hc. destruct i as [g c u|g c|g f|g m f now|w]; simpl.
  - destruct g as [g|]; simpl; [|done].
    by apply cache_ok_insert, set_NoDup, cached_NoDup.
  - destruct g as [g|]; simpl; [|done].
    by apply cache_ok_insert, delete_NoDup, cached_NoDup.
  - destruct f as [invs|]; simpl.
    + apply cache_ok_insert; [done | apply collect_uses_NoDup].
    + apply cache_ok_insert; [done | apply NoDup_nil_2].
  - destruct f as [live|]; [|done]. rewrite guildMemberAdd_spec. simpl.
    apply cache_ok_insert; [done | apply collect_uses_NoDup].
  - by destruct (periodicCheck RECEIVER_CARD WORTH w (db b)).
Qed.

End BotInvariants.

(** X19: every state the bot reaches keeps the invariants it started with:
    whatever joins, invite events, refreshes and passes happen, in any
    order, the ledger still has one row per member and per rowid with no
    rowid above the counter, pending rows still carry no payment data, and
    no snapshot holds a code twice. *)
Theorem run_keeps_invariants (RECEIVER_CARD : string) (WORTH : float)
    (b : Bot) (inputs : list Input) :
  table_ok (db b) → lifecycle_ok (db b) → cache_ok (invitesCache b) →
  let b' := (run RECEIVER_CARD WORTH b inputs).1 in
  table_ok (db b') ∧ lifecycle_ok (db b') ∧ cache_ok (invitesCache b').
Proof.
  revert b. induction inputs as [|i inputs IH]; intros b Hok Hl Hc; simpl.
  - done.
  - destruct (step RECEIVER_CARD WORTH b i) as [b1 calls1] eqn:Hstep.
    destruct (run RECEIVER_CARD WORTH b1 inputs) as [b2 calls2] eqn:Hrun.
    pose proof (step_keeps_ledger RECEIVER_CARD WORTH b i Hok Hl) as [Hok1 Hl1].
    pose proof (step_keeps_cache RECEIVER_CARD WORTH b i Hc) as Hc1.
    rewrite Hstep in Hok1, Hl1, Hc1. simpl in *.
    specialize (IH b1 Hok1 Hl1 Hc1). by rewrite Hrun in IH.
Qed.

Lemma empty_bot_ok :
  table_ok empty_table ∧ lifecycle_ok empty_table ∧
  cache_ok (∅ : InvitesCache).
Proof.
  split_and!; [apply empty_table_ok | by intros r ?%elem_of_nil |].
  intros g m Hg. by rewrite lookup_empty in Hg.
Qed.

Lemma run_keeps_invariants_witness :
  let w := world_answering (Resolved None) in
  let b' := (run "card" DEFAULT_WORTH (mkBot ∅ empty_table)
               [InRefresh "g" (Some [mkInvite "A" (Some 1) (Some "u1")]);
                InMemberAdd "g" "m1" (Some [mkInvite "A" (Some 2) (Some "u1")]) 100;
                InTick w; InInviteDelete (Some "g") "A"]).1 in
  table_ok (db b') ∧ lifecycle_ok (db b') ∧ cache_ok (invitesCache b').
Proof.
  exact (run_keeps_invariants "card" DEFAULT_WORTH (mkBot ∅ empty_table) _
           (proj1 empty_bot_ok) (proj1 (proj2 empty_bot_ok))
           (proj2 (proj2 empty_bot_ok))).
Defined.

(** ** The log-channel configuration *)

(** X20: the log channel of a group reads back as it was last set, reads
    as null once cleared or when never set, and setting or clearing it for
    one group leaves every other group's channel as it was. *)
Theorem log_channel_round_trip (cfg : GuildConfig) (g : string) :
  (∀ c, getLogChannel g (setLogChannel g c cfg) = Some c) ∧
  (∀ c1 c2, setLogChannel g c2 (setLogChannel g c1 cfg) = setLogChannel g c2 cfg) ∧
  getLogChannel g (clearLogChannel g cfg) = None ∧
  (∀ c, clearLogChannel g (setLogChannel g c cfg) = clearLogChannel g cfg) ∧
  getLogChannel g (∅ : GuildConfig) = None ∧
  (∀ g' c, g' ≠ g →
     getLogChannel g' (setLogChannel g c cfg) = getLogChannel g' cfg ∧
     getLogChannel g' (clearLogChannel g cfg) = getLogChannel g' cfg).
Proof.
  unfold getLogChannel, setLogChannel, clearLogChannel. split_and!.
  - intros c. by rewrite lookup_insert_eq.
  - intros c1 c2. apply insert_insert_eq.
  - by rewrite lookup_delete_eq.
  - intros c. apply delete_insert_eq.
  - by rewrite lookup_empty.
  - intros g' c Hne. by rewrite lookup_insert_ne, lookup_delete_ne.
Qed.

(** X21: [/log] is guarded.  A caller with neither [ManageGuild] nor
    [Administrator] changes nothing; a channel is only ever stored when it
    is text based and the bot may send there, and then it is the channel
    read back, even if [clear] was given too; [clear] alone removes the
    setting only when it is [true]; and no request touches the setting of
    another group. *)
Theorem log_command_guarded (g : string) (req : LogRequest)
    (cfg : GuildConfig) :
  let res := handleLogCommand g req cfg in
  (lr_manageGuild req = false → lr_administrator req = false →
   res = (ReplyNeedAdmin, cfg)) ∧
  (∀ c, getLogChannel g res.2 = Some c → getLogChannel g cfg ≠ Some c →
        (lr_manageGuild req = true ∨ lr_administrator req = true) ∧
        ∃ ch, lr_set req = Some ch ∧ ch_id ch = c ∧
              ch_isTextBased ch = true ∧ ch_botCanSend ch = true) ∧
  (∀ ch, lr_manageGuild req = true ∨ lr_administrator req = true →
         lr_set req = Some ch → ch_isTextBased ch = true →
         ch_botCanSend ch = true →
         res.1 = ReplySet (ch_id ch) ∧ getLogChannel g res.2 = Some (ch_id ch)) ∧
  (lr_set req = None → lr_clear req ≠ Some true → res.2 = cfg) ∧
  (lr_manageGuild req = true ∨ lr_administrator req = true →
   lr_set req = None → lr_clear req = Some true →
   res.1 = ReplyCleared ∧ getLogChannel g res.2 = None) ∧
  (∀ g', g' ≠ g → res.2 !! g' = cfg !! g').
Proof.
  intros res. unfold res, handleLogCommand.
  destruct req as [mg ad [[c tb cs]|] cl]; simpl.
  - split_and!.
    + by intros -> ->.
    + intros c'. destruct mg, ad, tb, cs; simpl; try done;
        unfold getLogChannel, setLogChannel; rewrite lookup_insert_eq;
        intros [= <-] _; (split; [auto|]); by eexists.
    + intros ch Hperm [= <-]. simpl. intros -> ->.
      assert (negb mg && negb ad = false) as ->
        by (destruct Hperm as [-> | ->]; [done | by destruct mg]).
      simpl. unfold getLogChannel, setLogChannel. by rewrite lookup_insert_eq.
    + done.
    + done.
    + intros g' Hne. destruct mg, ad, tb, cs; simpl; try done;
        by apply lookup_insert_ne.
  - split_and!.
    + by intros -> ->.
    + intros c Hget Hne. destruct mg, ad, cl as [[|]|]; simpl in Hget; try done;
        unfold getLogChannel, clearLogChannel in Hget;
        by rewrite lookup_delete_eq in Hget.
    + done.
    + intros _ Hcl. destruct mg, ad, cl as [[|]|]; simpl; done.
    + intros Hperm _ ->. simpl.
      assert (negb mg && negb ad = false) as ->
        by (destruct Hperm as [-> | ->]; [done | by destruct mg]).
      simpl. unfold getLogChannel, clearLogChannel. by rewrite lookup_delete_eq.
    + intros g' Hne. destruct mg, ad, cl as [[|]|]; simpl; try done;
        by apply lookup_delete_ne.
Qed.

(** ** Retry and the path from a join to its payment *)

Section Backlog.

Lemma markPaid_unpaid_le now j tx (l : list Row) :
  (length (filter (λ r, (paid r = 0)%Z)
     ((λ r, if decide (joined_id r = j) then set_paid now tx r else r) <$> l))
   ≤ length (filter (λ r, (paid r = 0)%Z) l))%nat.
Proof.
  induction l as [|r l IH]; csimpl; [done|]. rewrite !filter_cons.
  destruct (decide (joined_id r = j)); simpl.
  - destruct (decide (paid r = 0)); simpl; lia.
  - destruct (decide (paid r = 0)); simpl; lia.
Qed.

Lemma apply_op_unpaid_le t op :
  no_insert op →
  (length (filter (λ r, (paid r = 0)%Z) (rows (apply_op t op)))
   ≤ length (filter (λ r, (paid r = 0)%Z) (rows t)))%nat.
Proof.
  destruct op as [now g c i j|now j tx|j]; simpl; [done| |]; intros _.
  - apply markPaid_unpaid_le.
  - rewrite list_filter_filter. induction (rows t) as [|r l IH]; [done|].
    rewrite !filter_cons. destruct (decide (paid r = 0)) as [Hp|Hp].
    + destruct (decide (joined_id r ≠ j)).
      * rewrite decide_True by done. simpl. lia.
      * rewrite decide_False by (intros [??]; done). simpl. lia.
    + rewrite decide_False by (intros [??]; done). done.
Qed.

Lemma run_ops_unpaid_le ops t :
  Forall no_insert ops →
  (length (filter (λ r, (paid r = 0)%Z) (rows (foldl apply_op t ops)))
   ≤ length (filter (λ r, (paid r = 0)%Z) (rows t)))%nat.
Proof.
  revert t. induction ops as [|op ops IH]; intros t Hops; simpl; [done|].
  apply Forall_cons in Hops as [Hop Hops].
  etrans; [by apply IH | by apply apply_op_unpaid_le].
Qed.

Lemma pass_table_ok RECEIVER_CARD WORTH w t :
  table_ok t → table_ok (periodicCheck RECEIVER_CARD WORTH w t).1.
Proof.
  intros Hok. unfold periodicCheck. rewrite batch_as_ops.
  by apply run_ops_table_ok.
Qed.

Lemma pass_unpaid_le RECEIVER_CARD WORTH w t :
  (length (filter (λ r, (paid r = 0)%Z)
             (rows (periodicCheck RECEIVER_CARD WORTH w t).1))
   ≤ length (filter (λ r, (paid r = 0)%Z) (rows t)))%nat.
Proof.
  unfold periodicCheck. rewrite batch_as_ops.
  apply run_ops_unpaid_le, batch_ops_no_insert.
Qed.

(** The outcome of a resolved payment attempt for a batch row. *)
Lemma pass_resolved RECEIVER_CARD WORTH w t r data :
  table_ok t → r ∈ getUnpaidInvites 2000 t →
  guild_fetch w r = true → member_fetch w r = true →
  pay_response w r = Resolved data →
  mkPayCall r RECEIVER_CARD (inviter_id r) WORTH ∈
    (periodicCheck RECEIVER_CARD WORTH w t).2 ∧
  ∃ r', rows_for (joined_id r) (periodicCheck RECEIVER_CARD WORTH w t).1 = [r'] ∧
        paid r' = 1 ∧ same_record r r'.
Proof.
  intros Hok Hr Hg Hm Hpay.
  assert (attempted w r = true) as Hatt by (unfold attempted; by rewrite Hg, Hm).
  split; [apply pass_call_elem; by eauto|].
  rewrite pass_own by done. unfold outcome. rewrite Hatt, Hpay.
  destruct (payViaCard_resolved data) as (payRes & -> & _).
  eexists. split; [reflexivity|]. by repeat split.
Qed.

End Backlog.

(** X22: a payment that failed in one pass is tried again in the next.
    With at most 2000 records pending, a record whose POST was rejected is
    in the batch of the following pass, and if that pass finds the member
    present and its POST goes through, the request is sent again and the
    same record ends up paid. *)
Theorem rejected_payment_retried (RECEIVER_CARD : string) (WORTH : float)
    (w1 w2 : World) (t : Table) (r : Row) (msg : string)
    (data : option Payload) :
  table_ok t →
  (length (filter (λ r, (paid r = 0)%Z) (rows t)) ≤ 2000)%nat →
  r ∈ getUnpaidInvites 2000 t →
  guild_fetch w1 r = true → member_fetch w1 r = true →
  pay_response w1 r = Rejected msg →
  guild_fetch w2 r = true → member_fetch w2 r = true →
  pay_response w2 r = Resolved data →
  let t1 := (periodicCheck RECEIVER_CARD WORTH w1 t).1 in
  let res2 := periodicCheck RECEIVER_CARD WORTH w2 t1 in
  r ∈ getUnpaidInvites 2000 t1 ∧
  mkPayCall r RECEIVER_CARD (inviter_id r) WORTH ∈ res2.2 ∧
  ∃ r', rows_for (joined_id r) res2.1 = [r'] ∧ paid r' = 1 ∧ same_record r r'.
Proof.
  intros Hok Hlen Hr Hg1 Hm1 Hp1 Hg2 Hm2 Hp2 t1 res2.
  assert (r ∈ getUnpaidInvites 2000 t1) as Hr1.
  { pose proof (unpaid_elem _ _ _ Hr) as [_ Hp].
    apply unpaid_in_batch; [|  |done].
    - etrans; [apply pass_unpaid_le | done].
    - assert (r ∈ rows_for (joined_id r) t1) as Hin;
        [|by apply rows_for_elem in Hin as [_ ?]].
      unfold t1. rewrite pass_own by done. unfold outcome, attempted.
      rewrite Hg1, Hm1, Hp1. simpl. by left. }
  split; [done|].
  apply (pass_resolved _ _ _ _ _ data); [by apply pass_table_ok | done..].
Qed.

Lemma rejected_payment_retried_witness :
  let w1 := world_answering (Rejected "timeout of 15000ms exceeded") in
  let w2 := world_answering (Resolved None) in
  let r := pending_row in
  let t1 := (periodicCheck "card" DEFAULT_WORTH w1 pending_table).1 in
  let res2 := periodicCheck "card" DEFAULT_WORTH w2 t1 in
  r ∈ getUnpaidInvites 2000 t1 ∧
  mkPayCall r "card" (inviter_id r) DEFAULT_WORTH ∈ res2.2 ∧
  ∃ r', rows_for (joined_id r) res2.1 = [r'] ∧ paid r' = 1 ∧ same_record r r'.
Proof.
  apply (rejected_payment_retried "card" DEFAULT_WORTH
           (world_answering (Rejected "timeout of 15000ms exceeded"))
           (world_answering (Resolved None)) pending_table pending_row
           "timeout of 15000ms exceeded" None pending_table_ok);
    try reflexivity.
  - simpl. lia.
  - apply pending_row_in_batch.
Defined.

(** X23: from a join to its payment.  When a member without a record
    joins, the join is attributed to an invite whose owner is known, fewer
    than 2000 records are pending, and the next pass finds the member still
    present and its POST goes through, then the requests that pass sends
    for the member are exactly one, addressed to the owner of the invite,
    and the member's record is paid. *)
Theorem join_to_payment (RECEIVER_CARD : string) (WORTH : float) (b : Bot)
    (g member : string) (live : list Invite) (now : Z) (inv : Invite)
    (owner : string) (w : World) (data : option Payload) :
  table_ok (db b) →
  member ∉ joined_id <$> rows (db b) →
  (length (filter (λ r, (paid r = 0)%Z) (rows (db b))) < 2000)%nat →
  first_increased (cached (invitesCache b) g)
    (collect_uses live JsMap.empty) live = Some inv →
  inviter inv = Some owner → owner ≠ "" →
  let b1 := guildMemberAdd g member (Some live) now b in
  let r := mkRow (next_id (db b)) g (js_or (Some (code inv)) None) owner
             member now 0 None None in
  guild_fetch w r = true → member_fetch w r = true →
  pay_response w r = Resolved data →
  let res := periodicCheck RECEIVER_CARD WORTH w (db b1) in
  filter (λ pc, joined_id (pc_row pc) = member) res.2 =
    [mkPayCall r RECEIVER_CARD owner WORTH] ∧
  ∃ r', rows_for member res.1 = [r'] ∧ paid r' = 1 ∧ same_record r r'.
Proof.
  intros Hok Hnin Hlen Hfirst Hown Hne b1 r Hg Hm Hpay res.
  assert (db b1 = mkTable (rows (db b) ++ [r]) (next_id (db b))) as Hdb.
  { unfold b1. rewrite guildMemberAdd_spec, Hfirst. cbn [db].
    rewrite add_rows_absent by done. rewrite Hown.
    assert (js_or_str (Some owner) "(unknown)" = owner) as ->; [|done].
    unfold js_or_str, js_or. simpl. by rewrite bool_decide_eq_false_2. }
  assert (table_ok (db b1)) as Hok1.
  { unfold b1. rewrite guildMemberAdd_spec, Hfirst. cbn [db].
    by apply (apply_op_table_ok _ (OpInsertPending now g _ _ member)). }
  assert (r ∈ getUnpaidInvites 2000 (db b1)) as Hr
    by (rewrite Hdb; by apply appended_in_batch).
  destruct (pass_resolved RECEIVER_CARD WORTH w (db b1) r data Hok1 Hr Hg Hm Hpay)
    as [_ Hpaid].
  split; [|done].
  apply (pass_calls_for_member RECEIVER_CARD WORTH w (db b1) r Hok1 Hr).
  unfold attempted. by rewrite Hg, Hm.
Qed.

Lemma join_to_payment_witness :
  let b := mkBot ∅ empty_table in
  let inv := mkInvite "A" (Some 1) (Some "u1") in
  let w := world_answering (Resolved (Some (mkPayload (Some true) (Some "T1") None))) in
  let b1 := guildMemberAdd "g" "m1" (Some [inv]) 100 b in
  let r := mkRow (next_id (db b)) "g" (js_or (Some (code inv)) None) "u1"
             "m1" 100 0 None None in
  let res := periodicCheck "card" DEFAULT_WORTH w (db b1) in
  filter (λ pc, joined_id (pc_row pc) = "m1") res.2 =
    [mkPayCall r "card" "u1" DEFAULT_WORTH] ∧
  ∃ r', rows_for "m1" res.1 = [r'] ∧ paid r' = 1 ∧ same_record r r'.
Proof.
  apply (join_to_payment "card" DEFAULT_WORTH (mkBot ∅ empty_table) "g" "m1"
           [mkInvite "A" (Some 1) (Some "u1")] 100
           (mkInvite "A" (Some 1) (Some "u1")) "u1"
           (world_answering (Resolved (Some (mkPayload (Some true) (Some "T1") None))))
           (Some (mkPayload (Some true) (Some "T1") None)));
    try reflexivity.
  - apply empty_table_ok.
  - simpl. apply not_elem_of_nil.
  - simpl. lia.
  - done.
Defined.
